(** * Browser-side scraper of maxun-core: a shallow embedding

    Source: [src/maxun-core/src/browserSide/scraper.js].

    The script runs inside a page.  What the page offers (the element tree,
    selector matching, hit-testing, layout sizes, the scroll offset, URL
    parsing) is gathered in a [Host] record; the functions of the script are
    translated one by one on top of it.  A fault is a [TypeError] raised by
    the script itself when it dereferences [null] or [undefined]; exceptions
    thrown from inside a host primitive (an unparsable URL, an invalid
    selector) are the host's own and stay outside the embedding.  Strings
    are sequences of 8-bit characters and numbers of elements are naturals. *)

From Stdlib Require Import Ascii ZArith QArith Lia Lqa DecimalString DecimalNat.
From stdpp Require Import base decidable option list strings gmap.

Close Scope Q_scope.
Open Scope string_scope.
Open Scope list_scope.

(** ** JavaScript strings, values and faults *)

Module JS.

(** [s.startsWith(p)] *)
Fixpoint starts_with (p s : string) : bool :=
  match p, s with
  | EmptyString, _ => true
  | String a p', String b s' => if decide (a = b) then starts_with p' s' else false
  | String _ _, EmptyString => false
  end.

(** [s.includes(sub)], that is [s.indexOf(sub) !== -1]. *)
Fixpoint includes (sub s : string) : bool :=
  starts_with sub s ||
  match s with
  | EmptyString => false
  | String _ s' => includes sub s'
  end.

(** [s.split(sep)] for a non-empty separator.  [skip] counts the characters
    of a separator occurrence still to be dropped, [cur] is the piece being
    collected. *)
Fixpoint split_aux (sep s : string) (skip : nat) (cur : string) : list string :=
  match s with
  | EmptyString => [cur]
  | String c s' =>
      match skip with
      | S k => split_aux sep s' k cur
      | O =>
          if starts_with sep s
          then cur :: split_aux sep s' (String.length sep - 1) ""
          else split_aux sep s' 0 (cur +:+ String c "")
      end
  end.

Definition split (sep s : string) : list string := split_aux sep s 0 "".

(** White space removed by [trim] (the ASCII part of the ECMAScript set). *)
Definition is_space (c : ascii) : bool :=
  let n := nat_of_ascii c in
  (n =? 32)%nat || ((9 <=? n)%nat && (n <=? 13)%nat).

Fixpoint trim_start (s : string) : string :=
  match s with
  | String c s' => if is_space c then trim_start s' else s
  | EmptyString => EmptyString
  end.

(** Drops trailing white space: a character stays when it is not white space
    or when something stays after it. *)
Fixpoint trim_end (s : string) : string :=
  match s with
  | EmptyString => EmptyString
  | String c s' =>
      match trim_end s' with
      | EmptyString => if is_space c then EmptyString else String c EmptyString
      | r => String c r
      end
  end.

Definition trim (s : string) : string := trim_end (trim_start s).

(** [String(i)] for an index: its decimal digits. *)
Definition String_of (i : nat) : string := NilEmpty.string_of_uint (Nat.to_uint i).

Fixpoint zeros (k : nat) : string :=
  match k with
  | O => EmptyString
  | S k' => String "0" (zeros k')
  end.

(** [s.padStart(n, '0')] *)
Definition padStart0 (n : nat) (s : string) : string :=
  zeros (n - String.length s) +:+ s.

(** [Number(s)] for a string of decimal digits ([None] otherwise). *)
Definition Number_of (s : string) : option nat :=
  Nat.of_uint <$> NilEmpty.uint_of_string s.

(** The values a record field can hold. *)
Inductive value :=
| undefined
| null
| boolean (b : bool)
| str (s : string).

Global Instance value_eq_dec : EqDecision value.
Proof. solve_decision. Defined.

(** Truthiness of a string, as tested by [x ? a : b] and [x || y]. *)
Definition truthy_string (s : string) : bool :=
  match s with EmptyString => false | _ => true end.

Definition truthy (v : value) : bool :=
  match v with
  | str s => truthy_string s
  | boolean b => b
  | undefined | null => false
  end.

(** [a || b] and [a && b] *)
Definition or_else (a b : value) : value := if truthy a then a else b.
Definition and_then (a b : value) : value := if truthy a then b else a.

(** [a.findIndex(p)], [-1] when no element passes. *)
Fixpoint findIndex {A} (p : A -> bool) (a : list A) : Z :=
  match a with
  | [] => -1
  | x :: a' =>
      if p x then 0
      else let r := findIndex p a' in if (r <? 0)%Z then r else (r + 1)%Z
  end.

(** [a.every(f)] with the callback receiving element, index and array. *)
Definition every {A} (f : A -> nat -> list A -> bool) (a : list A) : bool :=
  forallb (fun ix => f ix.2 ix.1 a) (imap pair a).

(** [a.forEach(f)] calls [f] on every element and returns [undefined]; the
    callbacks given to it here have no effect. *)
Definition forEach {A B} (f : A -> B) (a : list A) : value := undefined.

(** Outcome of a call: a returned value or a [TypeError] raised by the
    script. *)
Inductive result (A : Type) :=
| Ok (a : A)
| TypeError.
Global Arguments Ok {A} a.
Global Arguments TypeError {A}.

Global Instance result_ret : MRet result := fun A a => Ok a.
Global Instance result_bind : MBind result := fun A B k r =>
  match r with Ok a => k a | TypeError => TypeError end.

End JS.

(** ** The element tree offered by the page *)

Module DOM.

Inductive ShadowMode := open | closed.

Global Instance ShadowMode_eq_dec : EqDecision ShadowMode.
Proof. solve_decision. Defined.

(** What the script reads from one element. *)
Record Element := {
  tagName : string;
  attributes : list (string * string);
  classList : list string;
  offsetHeight : Z;
  offsetWidth : Z;
  innerText : option string;   (* [None]: the property is undefined *)
  textContent : string;
  innerHTML : string;
  srcset : string;             (* reflected property, [""] when absent *)
  src : string                 (* reflected property, [""] when absent *)
}.

(** An element with its optional shadow tree and its child elements. *)
#[warnings="-register-all"] Inductive Tree :=
| TNode (el : Element) (shadow : option (ShadowMode * list Tree)) (kids : list Tree).

(** A node reference is the path leading to the node, innermost step first:
    [[]] is the document, [Child i :: p] the [i]-th child element of [p],
    [Shadow :: p] the shadow root attached to the element [p].  Two
    references are the same node ([===]) exactly when the paths are equal. *)
Inductive Step := Child (i : nat) | Shadow.
Definition Node := list Step.

Global Instance Step_eq_dec : EqDecision Step.
Proof. solve_decision. Defined.

Definition document : Node := [].

Inductive View :=
| VDocument (kids : list Tree)
| VElement (t : Tree)
| VShadowRoot (m : ShadowMode) (kids : list Tree).

Definition view_kids (v : View) : list Tree :=
  match v with
  | VDocument ks => ks
  | VElement (TNode _ _ ks) => ks
  | VShadowRoot _ ks => ks
  end.

(** What a reference denotes in the tree [doc] (the children of the
    document node). *)
Fixpoint view (doc : list Tree) (n : Node) : option View :=
  match n with
  | [] => Some (VDocument doc)
  | Child i :: p =>
      match view doc p with
      | Some v => VElement <$> (view_kids v !! i)
      | None => None
      end
  | Shadow :: p =>
      match view doc p with
      | Some (VElement (TNode _ (Some (m, ks)) _)) => Some (VShadowRoot m ks)
      | _ => None
      end
  end.

Definition element_at (doc : list Tree) (n : Node) : option Element :=
  match view doc n with
  | Some (VElement (TNode el _ _)) => Some el
  | _ => None
  end.

(** [node.parentNode]: a shadow root and the document have none. *)
Definition parentNode (n : Node) : option Node :=
  match n with
  | Child _ :: p => Some p
  | _ => None
  end.

(** [node.parentElement]: the parent when it is an element. *)
Definition parentElement (n : Node) : option Node :=
  match n with
  | Child _ :: (Child _ :: _) as p => Some p
  | _ => None
  end.

(** [a.contains(b)]: [b] is [a] or is reached from [a] through child steps;
    a shadow tree is not contained in its host. *)
Fixpoint contains (a b : Node) : bool :=
  bool_decide (a = b) ||
  match b with
  | Child _ :: p => contains a p
  | _ => false
  end.

(** [node.getRootNode()] *)
Fixpoint getRootNode (n : Node) : Node :=
  match n with
  | Child _ :: p => getRootNode p
  | _ => n
  end.

(** The elements of a subtree in document order, the root element first. *)
Fixpoint subtree_nodes (n : Node) (t : Tree) {struct t} : list Node :=
  match t with
  | TNode _ _ ks =>
      n :: (fix forest (i : nat) (ks : list Tree) : list Node :=
              match ks with
              | [] => []
              | k :: ks' => subtree_nodes (Child i :: n) k ++ forest (S i) ks'
              end) 0%nat ks
  end.

Fixpoint forest_nodes (n : Node) (i : nat) (ks : list Tree) : list Node :=
  match ks with
  | [] => []
  | k :: ks' => subtree_nodes (Child i :: n) k ++ forest_nodes n (S i) ks'
  end.

(** The element descendants of a document, element or shadow root. *)
Definition descendants (doc : list Tree) (n : Node) : list Node :=
  match view doc n with
  | Some v => forest_nodes n 0 (view_kids v)
  | None => []
  end.

(** [node.children] *)
Definition children (doc : list Tree) (n : Node) : list Node :=
  match view doc n with
  | Some v => (fun i => Child i :: n) <$> seq 0 (length (view_kids v))
  | None => []
  end.

(** [element.shadowRoot]: the shadow root when there is one and it is open
    ([null] for a closed one, [undefined] on the document). *)
Definition shadowRoot (doc : list Tree) (n : Node) : option Node :=
  match view doc n with
  | Some (VElement (TNode _ (Some (open, _)) _)) => Some (Shadow :: n)
  | _ => None
  end.

(** [shadowRoot.mode] *)
Definition mode (doc : list Tree) (n : Node) : option ShadowMode :=
  match view doc n with
  | Some (VShadowRoot m _) => Some m
  | _ => None
  end.

End DOM.

Import DOM.

(** ** The host interface *)

Record Host := {
  (** children of the document node *)
  tree : list Tree;
  (** [element.matches(selector)], the host's selector engine *)
  matches : string -> Node -> bool;
  (** [document.elementFromPoint(x, y)] at a given scroll offset *)
  elementFromPoint : Z * Z -> Z -> Z -> option Node;
  innerWidth : Z;
  innerHeight : Z;
  (** largest scroll offsets of the page; [scrollTo] clamps to them *)
  scrollMaxX : Z;
  scrollMaxY : Z;
  (** [window.location.origin] and [window.location.href] *)
  origin : string;
  href : string;
  (** [new URL(reference, base).href] *)
  URL_href : string -> string -> string
}.

Section HostAPI.
Context (H : Host).

(** [root.querySelectorAll(selector)]: the matching element descendants in
    document order. *)
Definition querySelectorAll (root : Node) (selector : string) : list Node :=
  List.filter (matches H selector) (descendants (tree H) root).

(** [root.querySelector(selector)] *)
Definition querySelector (root : Node) (selector : string) : option Node :=
  head (querySelectorAll root selector).

Definition prop {A} (f : Element -> A) (default : A) (n : Node) : A :=
  from_option f default (element_at (tree H) n).

(** [element.getAttribute(name)] *)
Definition getAttribute (n : Node) (name : string) : JS.value :=
  match element_at (tree H) n with
  | Some el =>
      match List.find (fun kv => bool_decide (kv.1 = name)) (attributes el) with
      | Some kv => JS.str kv.2
      | None => JS.null
      end
  | None => JS.null
  end.

(** [element.offsetHeight * element.offsetWidth] *)
Definition area (n : Node) : Z :=
  (prop offsetHeight 0 n * prop offsetWidth 0 n)%Z.

End HostAPI.

(** ** Selector Generator *)

(** [GetSelectorStructural(element)].  The recursion follows
    [element.parentElement]; see [GetSelectorStructural_unfold] for the
    equation in the shape of the source. *)
Fixpoint GetSelectorStructural (H : Host) (element : Node) : string :=
  if bool_decide (prop H tagName "" element = "BODY") then "BODY"
  else
    let selector := prop H tagName "" element in
    match element with
    | Child _ :: p =>
        match p with
        | Child _ :: _ => GetSelectorStructural H p +:+ " > " +:+ selector
        | _ => selector
        end
    | _ => selector
    end.

(** ** Heuristic Locator *)

Inductive MetricType := total_area | size_deviation | other_metric.

Record HeuristicParams := {
  maxCountPerPage : nat;
  minArea : Z;
  scrolls : nat;
  metricType : MetricType
}.

Definition default_params : HeuristicParams :=
  {| maxCountPerPage := 50; minArea := 20000; scrolls := 3;
     metricType := size_deviation |}.

Record MaxSelector := { selector : string; metric : Q }.

(** The scroll offset [(scrollX, scrollY)] is the one piece of page state the
    script writes. *)
Definition Scroll : Type := Z * Z.

Definition clamp (hi v : Z) : Z := Z.max 0 (Z.min hi v).

(** [window.scrollTo(x, y)] *)
Definition scrollTo (H : Host) (x y : Z) : Scroll :=
  (clamp (scrollMaxX H) x, clamp (scrollMaxY H) y).


(** The coordinates [0, 200, 400, ...] below [limit]: the loop
    [for (v = 0; v < limit; v += 1 / granularity)] with the default
    granularity [0.005], whose quotient [1 / 0.005] is exactly [200] in
    double precision. *)
Definition grid_axis (limit : Z) : list Z :=
  (fun k => (Z.of_nat k * 200)%Z) <$> seq 0 (Z.to_nat ((limit + 199) / 200)).

(** [getGrid()] *)
Definition getGrid (H : Host) : list (Z * Z) :=
  x ← grid_axis (innerWidth H); y ← grid_axis (innerHeight H); [(x, y)].

(** [Math.max(...sizes)] and [Math.min(...sizes)] on a non-empty array. *)
Definition Math_max (sizes : list Z) : Z := foldr Z.max (default 0%Z (head sizes)) sizes.
Definition Math_min (sizes : list Z) : Z := foldr Z.min (default 0%Z (head sizes)) sizes.

(** The score of a candidate; [None] is [NaN] (the quotient [0 / 0]), and the
    [null] left by an unknown metric type compares as [0].  The quotient is
    exact here, where the script rounds it to a double. *)
Definition score (H : Host) (mt : MetricType) (elements : list Node) : option Q :=
  match mt with
  | total_area => Some (inject_Z (foldl (fun p x => (p + area H x)%Z) 0%Z elements))
  | size_deviation =>
      let sizes := area H <$> elements in
      if (Math_max sizes =? 0)%Z then None
      else Some (1 - inject_Z (Math_max sizes - Math_min sizes) / inject_Z (Math_max sizes))%Q
  | other_metric => Some 0%Q
  end.

(** [metric > maxSelector.metric] *)
Definition score_gt (m : option Q) (q : Q) : bool :=
  match m with
  | Some v => negb (Qle_bool v q)
  | None => false
  end.

(** [updateMaximumWithPoint(point)].  [GetSelectorStructural] reads
    [element.tagName], so a hit-test that finds no element raises. *)
Definition updateMaximumWithPoint (H : Host) (p : HeuristicParams) (scroll : Scroll)
    (maxSelector : MaxSelector) (point : Z * Z) : JS.result MaxSelector :=
  match elementFromPoint H scroll point.1 point.2 with
  | None => JS.TypeError
  | Some currentElement =>
      let selector := GetSelectorStructural H currentElement in
      let elements :=
        List.filter (fun element => (area H element >? minArea p)%Z)
                    (querySelectorAll H document selector) in
      if (length elements <? 3)%nat then JS.Ok maxSelector
      else
        let new_metric := score H (metricType p) elements in
        if score_gt new_metric (metric maxSelector)
           && (length elements <? maxCountPerPage p)%nat
        then JS.Ok {| selector := selector; metric := default 0%Q new_metric |}
        else JS.Ok maxSelector
  end.

(** [grid.forEach(updateMaximumWithPoint)] *)
Fixpoint sample_grid (H : Host) (p : HeuristicParams) (scroll : Scroll)
    (grid : list (Z * Z)) (maxSelector : MaxSelector) : JS.result MaxSelector :=
  match grid with
  | [] => JS.Ok maxSelector
  | point :: grid' =>
      m ← updateMaximumWithPoint H p scroll maxSelector point;
      sample_grid H p scroll grid' m
  end.

(** The loop [for (scroll = 0; scroll < scrolls; scroll += 1)], run over the
    remaining values of [scroll]; the scroll offset is threaded through and
    is what the page is left with when a fault stops the loop. *)
Fixpoint sample_scrolls (H : Host) (p : HeuristicParams) (todo : list nat)
    (st : Scroll) (maxSelector : MaxSelector) : Scroll * JS.result MaxSelector :=
  match todo with
  | [] => (st, JS.Ok maxSelector)
  | scroll :: todo' =>
      let st' := scrollTo H 0 (Z.of_nat scroll * innerHeight H) in
      match sample_grid H p st' (getGrid H) maxSelector with
      | JS.Ok m => sample_scrolls H p todo' st' m
      | JS.TypeError => (st', JS.TypeError)
      end
  end.

(** [different(x, i, a)] *)
Definition different (x : option Node) (i : nat) (a : list (option Node)) : bool :=
  bool_decide (JS.findIndex (fun e => bool_decide (e = x)) a = Z.of_nat i).

(** The guard of the generalization loop. *)
Definition generalize_guard (out : list Node) : JS.value :=
  JS.and_then
    (JS.boolean (JS.every different (parentElement <$> out)))
    (JS.forEach (fun x => negb (bool_decide (parentElement x = None))) out).

(** The generalization loop [while (guard) { out = out.map(...) }]; [fuel]
    bounds the number of substitution rounds, [None] when that was not
    enough. *)
Fixpoint generalize (fuel : nat) (out : list Node) : option (list Node) :=
  if JS.truthy (generalize_guard out) then
    match fuel with
    | O => None
    | S fuel' => generalize fuel' ((fun x => default x (parentElement x)) <$> out)
    end
  else Some out.

(** The loop as the comment above it words it ("as long as we don't merge
    any two elements by substituing them for their parents, we
    substitute"): the same guard with [every] where the source has
    [forEach].  It is what the source is compared with, not part of it. *)
Definition commented_guard (out : list Node) : bool :=
  JS.every different (parentElement <$> out)
  && forallb (fun x => negb (bool_decide (parentElement x = None))) out.

Fixpoint generalize_as_commented (fuel : nat) (out : list Node) : option (list Node) :=
  if commented_guard out then
    match fuel with
    | O => None
    | S fuel' =>
        generalize_as_commented fuel' ((fun x => default x (parentElement x)) <$> out)
    end
  else Some out.

(** [scrapableHeuristics(maxCountPerPage, minArea, scrolls, metricType)] run
    from the scroll offset [st]: the offset left behind and the outcome
    ([None]: the generalization loop ran out of [fuel]). *)
Definition scrapableHeuristics (H : Host) (p : HeuristicParams) (fuel : nat)
    (st : Scroll) : Scroll * JS.result (option (list Node)) :=
  let '(scrollX, scrollY) := st in
  let restoreScroll := fun _ : unit => scrollTo H scrollX scrollY in
  let maxSelector := {| selector := "body"; metric := 0 |} in
  match sample_scrolls H p (seq 0 (scrolls p)) st maxSelector with
  | (st', JS.Ok maxSelector) =>
      let st'' := restoreScroll () in
      let out := querySelectorAll H document (selector maxSelector) in
      (st'', JS.Ok (generalize fuel out))
  | (st', JS.TypeError) => (st', JS.TypeError)
  end.

(** ** Record Extractor *)

(** A scraped record: a JavaScript object from keys to values. *)
Abbreviation ScrapedRecord := (gmap string JS.value).

(** [{...a, ...b}]: the keys of [b] win. *)
Definition spread (a b : ScrapedRecord) : ScrapedRecord := b ∪ a.

(** [a.reduce((p, x, i) => f(p, x, i), init)] *)
Definition reduce_i {A B} (f : B -> A -> nat -> B) (init : B) (a : list A) : B :=
  foldl (fun p ix => f p ix.2 ix.1) init (imap pair a).

(** The [imgUrl] computed for one [<img>] ([None]: [undefined]): the first
    word of the last [", "]-separated candidate of [srcset], or else [src]
    unless it has [data:] somewhere in it. *)
Definition imgUrl (H : Host) (x : Node) : option string :=
  let url :=
    if JS.truthy_string (prop H srcset "" x)
    then
      let urls := JS.split ", " (prop H srcset "" x) in
      head (JS.split " " (default "" (last urls)))
    else None in
  if JS.truthy_string (prop H srcset "" x) then url
  else if negb (JS.includes "data:" (prop H src "" x)) then Some (prop H src "" x)
  else None.

(** What the conditional spread [...(imgUrl ? { [key]: imgUrl } : {})] adds:
    nothing for [undefined] and for the empty string. *)
Definition accepted (url : option string) : option JS.value :=
  match url with
  | Some u => if JS.truthy_string u then Some (JS.str u) else None
  | None => None
  end.

(** The widest candidate of a source set, as the design words it and as
    the comment in the source promises ("the largest elements from
    [srcset]"): a candidate is a URL followed by a width [<digits>w].  It is
    what [imgUrl] is compared with, not part of the source. *)
Fixpoint width_digits (descriptor : string) : option string :=
  match descriptor with
  | EmptyString => None
  | String "w" EmptyString => Some EmptyString
  | String c d => String c <$> width_digits d
  end.

Definition candidate_width (candidate : string) : option (string * nat) :=
  match JS.split " " candidate with
  | [url; descriptor] => pair url <$> (width_digits descriptor ≫= JS.Number_of)
  | _ => None
  end.

Definition widest_candidate (srcset : string) : option string :=
  fst <$> foldl (fun best candidate =>
                   match candidate_width candidate, best with
                   | Some (u, w), Some (_, bw) => if (bw <? w)%nat then Some (u, w) else best
                   | Some uw, None => Some uw
                   | None, _ => best
                   end) None (JS.split ", " srcset).

Definition img_key (i : nat) : string := "img_" +:+ JS.String_of i.
Definition record_key (i : nat) : string := "record_" +:+ JS.padStart0 4 (JS.String_of i).

(** The first [reduce] of [window.scrape], over [record.querySelectorAll('img')]. *)
Definition image_fields (H : Host) (imgs : list Node) : ScrapedRecord :=
  reduce_i (fun p x i =>
      spread p (match accepted (imgUrl H x) with
                | Some v => {[ img_key i := v ]}
                | None => ∅
                end))
    ∅ imgs.

(** The second [reduce], over [record.innerText.split('\n')]. *)
Definition text_fields (lines : list string) : ScrapedRecord :=
  reduce_i (fun p x i => <[ record_key i := JS.str (JS.trim x) ]> p) ∅ lines.

Definition newline : string := String (ascii_of_nat 10) "".

(** The callback mapped over the matched elements; reading [innerText] off an
    element that has none and calling [split] on it raises. *)
Definition scrape_record (H : Host) (record : Node) : JS.result ScrapedRecord :=
  match prop H innerText None record with
  | Some text =>
      JS.Ok (spread (image_fields H (querySelectorAll H record "img"))
                    (text_fields (JS.split newline text)))
  | None => JS.TypeError
  end.

Fixpoint map_result {A B} (f : A -> JS.result B) (l : list A) : JS.result (list B) :=
  match l with
  | [] => JS.Ok []
  | a :: l' => b ← f a; bs ← map_result f l'; JS.Ok (b :: bs)
  end.

(** [window.scrape(selector)]; without a selector the elements come from
    [scrapableHeuristics()], which moves the scroll offset. *)
Definition scrape (H : Host) (selector : option string) (fuel : nat) (st : Scroll)
    : Scroll * JS.result (option (list ScrapedRecord)) :=
  if JS.truthy_string (default "" selector)
  then (st, rs ← map_result (scrape_record H)
                    (querySelectorAll H document (default "" selector));
            JS.Ok (Some rs))
  else
    match scrapableHeuristics H default_params fuel st with
    | (st', JS.Ok (Some out)) => (st', rs ← map_result (scrape_record H) out; JS.Ok (Some rs))
    | (st', JS.Ok None) => (st', JS.Ok None)
    | (st', JS.TypeError) => (st', JS.TypeError)
    end.

(** ** Schema Extractor *)

Record FieldConfig := {
  fselector : string;          (* [selector] in the source *)
  attribute : option string;   (* [None]: not given *)
  shadow : bool
}.

(** A JavaScript object with field labels as keys, in enumeration order. *)
Definition Fields : Type := list (string * FieldConfig).

(** [Object.fromEntries(entries)]: a later entry replaces an earlier one. *)
Definition fromEntries (entries : list (string * JS.value)) : ScrapedRecord :=
  foldl (fun m kv => <[ kv.1 := kv.2 ]> m) ∅ entries.

(** [omap(object, f, kf)] with the identity for [kf], as at its call sites. *)
Definition omap_record (object : Fields) (f : FieldConfig -> JS.value) : ScrapedRecord :=
  fromEntries ((fun kv => (kv.1, f kv.2)) <$> object).

(** [object[key]] *)
Definition get_field (object : Fields) (key : string) : option FieldConfig :=
  snd <$> List.find (fun kv => bool_decide (kv.1 = key)) object.

(** The elements collected for one selector part at position [i] of [n]
    parts, from one of the current elements. *)
Definition shadow_targets (H : Host) (n i : nat) (part : string) (element : Node) : list Node :=
  if (i =? 0)%nat then
    List.filter (fun el =>
        if (i =? n - 1)%nat then true
        else match shadowRoot (tree H) el with
             | Some sr => bool_decide (mode (tree H) sr = Some open)
             | None => false
             end)
      (querySelectorAll H element part)
  else
    match shadowRoot (tree H) element with
    | Some sr =>
        if bool_decide (mode (tree H) sr = Some open) then querySelectorAll H sr part else []
    | None => []
    end.

(** The loop of [findAllElements] over the remaining parts. *)
Fixpoint findAll_parts (H : Host) (n i : nat) (parts : list string)
    (currentElements : list Node) : list Node :=
  match parts with
  | [] => currentElements
  | part :: parts' =>
      let nextElements := currentElements ≫= shadow_targets H n i part in
      if (length nextElements =? 0)%nat then []
      else findAll_parts H n (S i) parts' nextElements
  end.

(** [findAllElements(config)] *)
Definition findAllElements (H : Host) (config : FieldConfig) : list Node :=
  if negb (shadow config) || negb (JS.includes ">>" (fselector config))
  then querySelectorAll H document (fselector config)
  else
    let parts := JS.trim <$> JS.split ">>" (fselector config) in
    findAll_parts H (length parts) 0 parts [document].

Definition optional_trim (text : option string) : JS.value :=
  match text with
  | Some t => JS.str (JS.trim t)
  | None => JS.undefined
  end.

(** [getElementValue(element, attribute)] *)
Definition getElementValue (H : Host) (element : option Node) (attribute : option string)
    : JS.value :=
  match element with
  | None => JS.null
  | Some element =>
      if bool_decide (attribute = Some "href") then
        let relativeHref := getAttribute H element "href" in
        match relativeHref with
        | JS.str r => if JS.truthy_string r then JS.str (URL_href H r (origin H)) else JS.null
        | _ => JS.null
        end
      else if bool_decide (attribute = Some "src") then
        let relativeSrc := getAttribute H element "src" in
        match relativeSrc with
        | JS.str r => if JS.truthy_string r then JS.str (URL_href H r (origin H)) else JS.null
        | _ => JS.null
        end
      else if bool_decide (attribute = Some "innerText") then
        optional_trim (prop H innerText None element)
      else if bool_decide (attribute = Some "textContent") then
        JS.str (JS.trim (prop H textContent "" element))
      else
        JS.or_else (getAttribute H element (default "undefined" attribute))
                   (optional_trim (prop H innerText None element))
  end.

(** [getSeedKey(listObj)]: the first key whose list is as long as the
    longest ([None]: [undefined], for an object without keys). *)
Definition getSeedKey (H : Host) (listObj : Fields) : option string :=
  let maxLength := foldr Nat.max 0%nat ((fun kv => length (findAllElements H kv.2)) <$> listObj) in
  fst <$> head (List.filter
                  (fun kv => (length (findAllElements H kv.2) =? maxLength)%nat) listObj).

(** [isUniqueChild(e)] inside [getMBEs(elements)] *)
Definition isUniqueChild (elements : list Node) (e : Node) : bool :=
  (length (List.filter (fun elem =>
              match parentNode e with
              | Some p => contains p elem
              | None => false
              end) elements) =? 1)%nat.

(** The loop [while (candidate && isUniqueChild(candidate))] started at
    [candidate]; [None] is a walk that ends on [null].  Each round moves to
    [candidate.parentNode], one step shorter. *)
Fixpoint mbe_walk (elements : list Node) (candidate : Node) : option Node :=
  if isUniqueChild elements candidate then
    match candidate with
    | Child _ :: p => mbe_walk elements p
    | _ => None
    end
  else Some candidate.

(** [getMBEs(elements)] *)
Definition getMBEs (elements : list Node) : list (option Node) :=
  mbe_walk elements <$> elements.

(** [Object.values(result)] *)
Definition values (result : ScrapedRecord) : list JS.value := (map_to_list result).*2.

(** [Object.keys(result).length] *)
Definition keys_length (result : ScrapedRecord) : nat := size result.

(** The value computed for one field of the item bounded by [mbe]:
    [findAllElements(config).find((elem) => mbe.contains(elem))] calls
    [mbe.contains] once there is an element to test, which raises on a
    [null] bound. *)
Definition mbe_value (H : Host) (mbe : option Node) (config : FieldConfig)
    : JS.result JS.value :=
  match mbe, findAllElements H config with
  | Some m, found =>
      JS.Ok (match List.find (fun elem => contains m elem) found with
             | Some elem => getElementValue H (Some elem) (attribute config)
             | None => JS.undefined
             end)
  | None, [] => JS.Ok JS.undefined
  | None, _ :: _ => JS.TypeError
  end.

(** What [mbe_value] returns for a bound that is a node. *)
Definition bounded_value (H : Host) (m : Node) (config : FieldConfig) : JS.value :=
  match List.find (fun elem => contains m elem) (findAllElements H config) with
  | Some elem => getElementValue H (Some elem) (attribute config)
  | None => JS.undefined
  end.

(** The test at the head of [findAllElements]: the selector is handed to
    [document.querySelectorAll] as it is. *)
Definition plain_query (config : FieldConfig) : bool :=
  negb (shadow config) || negb (JS.includes ">>" (fselector config)).

(** [omap(lists, f)] for a callback that can raise. *)
Definition omap_result (object : Fields) (f : FieldConfig -> JS.result JS.value)
    : JS.result ScrapedRecord :=
  entries ← map_result (fun kv => v ← f kv.2; JS.Ok (kv.1, v)) object;
  JS.Ok (fromEntries entries).

(** The first phase of [window.scrapeSchema(lists)]: one record per minimal
    bounding element.  With no field at all the seed key is [undefined] and
    reading [config.shadow] off [lists[undefined]] raises. *)
Definition mbeResults (H : Host) (lists : Fields) : JS.result (list ScrapedRecord) :=
  match getSeedKey H lists ≫= get_field lists with
  | None => JS.TypeError
  | Some seedConfig =>
      let seedElements := findAllElements H seedConfig in
      let MBEs := getMBEs seedElements in
      map_result (fun mbe => omap_result lists (mbe_value H mbe)) MBEs
  end.

(** [foundElements.set(key, elements)] on an insertion-ordered [Map]. *)
Fixpoint Map_set {V} (key : string) (v : V) (m : list (string * V)) : list (string * V) :=
  match m with
  | [] => [(key, v)]
  | kv :: m' => if bool_decide (kv.1 = key) then (key, v) :: m' else kv :: Map_set key v m'
  end.

(** An array that can have empty slots: [results[index]] and
    [results[index] = x]. *)
Definition get_at {A} (a : list (option A)) (index : nat) : option A :=
  mjoin (a !! index).

Definition set_at {A} (a : list (option A)) (index : nat) (x : A) : list (option A) :=
  if (index <? length a)%nat then <[ index := Some x ]> a
  else a ++ replicate (index - length a) None ++ [Some x].

(** The body of the inner [forEach] of the second phase. *)
Definition zip_element (H : Host) (lists : Fields) (key : string)
    (results : list (option ScrapedRecord)) (index : nat) (element : Node)
    : list (option ScrapedRecord) :=
  let results :=
    match get_at results index with
    | Some _ => results
    | None => set_at results index ∅
    end in
  match get_at results index with
  | Some r =>
      set_at results index
        (<[ key := getElementValue H (Some element) (get_field lists key ≫= attribute) ]> r)
  | None => results
  end.

(** The second phase: every field's elements are laid out by position. *)
Definition independent_scraping (H : Host) (lists : Fields) : list ScrapedRecord :=
  let foundElements :=
    foldl (fun m kv => Map_set kv.1 (findAllElements H kv.2) m) [] lists in
  let results :=
    foldl (fun results ke =>
             reduce_i (fun results element index => zip_element H lists ke.1 results index element)
                      results ke.2)
          [] foundElements in
  List.filter (fun result => (0 <? keys_length result)%nat) (omap id results).

(** Positional zipping in the words of the design: item [i] is assembled
    from index [i] of every field's list, and items left without a field
    are dropped. *)
Definition item_at (H : Host) (lists : Fields) (i : nat) : ScrapedRecord :=
  foldl (fun r kv =>
           match findAllElements H kv.2 !! i with
           | Some element => <[ kv.1 := getElementValue H (Some element) (attribute kv.2) ]> r
           | None => r
           end) ∅ lists.

Definition longest (H : Host) (lists : Fields) : nat :=
  foldr Nat.max 0%nat ((fun kv => length (findAllElements H kv.2)) <$> lists).

Definition positional_zip (H : Host) (lists : Fields) : list ScrapedRecord :=
  List.filter (fun r => (0 <? keys_length r)%nat)
              (item_at H lists <$> seq 0 (longest H lists)).

(** [window.scrapeSchema(lists)] *)
Definition scrapeSchema (H : Host) (lists : Fields) : JS.result (list ScrapedRecord) :=
  results ← mbeResults H lists;
  if existsb (fun result => existsb (fun v => bool_decide (v = JS.undefined)) (values result))
             results
  then JS.Ok (independent_scraping H lists)
  else JS.Ok results.

(** ** List Extractor *)

(** [Math.floor(n * 0.7)] as the script computes it, in double precision.
    The double nearest to [0.7] is [6305039478318694 * 2^-53]; the exact
    product with [n] is rounded to 53 significant bits, ties to even, and
    the floor of that double is taken. *)
Definition floor_times_0_7 (n : nat) : Z :=
  let P := (Z.of_nat n * 6305039478318694)%Z in
  let bits := if (P =? 0)%Z then 0%Z else (Z.log2 P + 1)%Z in
  if (bits <=? 53)%Z then Z.shiftr P 53
  else
    let s := (bits - 53)%Z in
    let q := Z.shiftr P s in
    let r := Z.land P (Z.ones s) in
    let half := Z.shiftl 1 (s - 1) in
    let q' := if (half <? r)%Z || ((r =? half)%Z && Z.odd q) then (q + 1)%Z else q in
    (* the double is [q' * 2^(s - 53)] *)
    if (53 <=? s)%Z then Z.shiftl q' (s - 53) else Z.shiftr q' (53 - s).

(** One round of the loop of [queryShadowDOM]: the first match under the
    current element, else in its shadow root, else in the shadow root of the
    first child that has a match.  (Documents, elements and shadow roots all
    have [querySelector], so the branch for a node without it is never
    taken.) *)
Definition query_step (H : Host) (currentElement : Node) (part : string) : option Node :=
  let nextElement := querySelector H currentElement part in
  let nextElement :=
    match nextElement, shadowRoot (tree H) currentElement with
    | None, Some sr => querySelector H sr part
    | _, _ => nextElement
    end in
  match nextElement with
  | Some _ => nextElement
  | None =>
      head (omap (fun child => sr ← shadowRoot (tree H) child; querySelector H sr part)
                 (children (tree H) currentElement))
  end.

Fixpoint query_parts (H : Host) (currentElement : option Node) (parts : list string)
    : option Node :=
  match parts with
  | [] => currentElement
  | part :: parts' =>
      match currentElement with
      | None => None
      | Some cur => query_parts H (query_step H cur part) parts'
      end
  end.

(** [queryShadowDOM(rootElement, selector)] *)
Definition queryShadowDOM (H : Host) (rootElement : Node) (selector : string) : option Node :=
  query_parts H (Some rootElement) (JS.trim <$> JS.split ">>" selector).

(** What one element contributes to [nextElements] in [queryShadowDOMAll]. *)
Definition query_all_step (H : Host) (part : string) (element : Node) : list Node :=
  querySelectorAll H element part
  ++ match shadowRoot (tree H) element with
     | Some sr => querySelectorAll H sr part
     | None => []
     end
  ++ (children (tree H) element ≫= fun child =>
        match shadowRoot (tree H) child with
        | Some sr => querySelectorAll H sr part
        | None => []
        end).

(** [queryShadowDOMAll(rootElement, selector)] *)
Definition queryShadowDOMAll (H : Host) (rootElement : Node) (selector : string) : list Node :=
  foldl (fun currentElements part => currentElements ≫= query_all_step H part)
        [rootElement] (JS.trim <$> JS.split ">>" selector).

(** The class-similarity filter of the fallback. *)
Definition similar_children (H : Host) (container firstMatch : Node) : list Node :=
  let allChildren := children (tree H) container in
  let firstMatchClasses := prop H classList [] firstMatch in
  List.filter (fun element =>
      let elementClasses := prop H classList [] element in
      let commonClasses :=
        List.filter (fun cls => bool_decide (cls ∈ elementClasses)) firstMatchClasses in
      (floor_times_0_7 (length firstMatchClasses) <=? Z.of_nat (length commonClasses))%Z)
    allChildren.

(** The class tokens of the first match that an element has too
    ([commonClasses]). *)
Definition shared_classes (H : Host) (firstMatch element : Node) : list string :=
  List.filter (fun cls => bool_decide (cls ∈ prop H classList [] element))
              (prop H classList [] firstMatch).

(** [parentElements] as it stands when the containers are processed. *)
Definition parentElements (H : Host) (listSelector : string) (limit : nat) : list Node :=
  let parentElements := queryShadowDOMAll H document listSelector in
  if (1 <? limit)%nat && (length parentElements <=? 1)%nat then
    let containerSelector := default "" (head (JS.trim <$> JS.split ">>" listSelector)) in
    match queryShadowDOM H document containerSelector with
    | Some container =>
        match queryShadowDOM H document listSelector with
        | Some firstMatch => similar_children H container firstMatch
        | None => parentElements
        end
    | None => parentElements
    end
  else parentElements.

Definition text_or_empty (text : option string) : JS.value :=
  JS.or_else (optional_trim text) (JS.str "").

Definition resolve_attribute (H : Host) (fieldElement : Node) (name : string) : JS.value :=
  match getAttribute H fieldElement name with
  | JS.str r => if JS.truthy_string r then JS.str (URL_href H r (origin H)) else JS.null
  | _ => JS.null
  end.

(** The body of the loop over [Object.entries(fields)] for one container. *)
Definition scrape_field (H : Host) (parent : Node) (record : ScrapedRecord)
    (entry : string * FieldConfig) : ScrapedRecord :=
  let '(label, config) := entry in
  let relativeSelector := default "" (last (JS.split ">>" (fselector config))) in
  match queryShadowDOM H parent relativeSelector with
  | Some fieldElement =>
      let v :=
        if bool_decide (attribute config = Some "innerText") then
          text_or_empty (prop H innerText None fieldElement)
        else if bool_decide (attribute config = Some "innerHTML") then
          text_or_empty (Some (prop H innerHTML "" fieldElement))
        else if bool_decide (attribute config = Some "src") then
          resolve_attribute H fieldElement "src"
        else if bool_decide (attribute config = Some "href") then
          resolve_attribute H fieldElement "href"
        else getAttribute H fieldElement (default "undefined" (attribute config)) in
      <[ label := v ]> record
  | None => record
  end.

Definition scrape_container (H : Host) (fields : Fields) (parent : Node) : ScrapedRecord :=
  foldl (scrape_field H parent) ∅ fields.

(** The loop [for (const parent of parentElements)]. *)
Fixpoint process_parents (H : Host) (fields : Fields) (limit : nat)
    (parents : list Node) (scrapedData : list ScrapedRecord) : list ScrapedRecord :=
  match parents with
  | [] => scrapedData
  | parent :: parents' =>
      if (limit <=? length scrapedData)%nat then scrapedData
      else
        let record := scrape_container H fields parent in
        process_parents H fields limit parents'
          (if (0 <? keys_length record)%nat then scrapedData ++ [record] else scrapedData)
  end.

(** The loop [while (scrapedData.length < limit)]; [fuel] bounds the number
    of passes over the containers, [None] when that was not enough. *)
Fixpoint scrapeList_loop (H : Host) (listSelector : string) (fields : Fields)
    (limit : nat) (fuel : nat) (scrapedData : list ScrapedRecord)
    : option (list ScrapedRecord) :=
  if (length scrapedData <? limit)%nat then
    match fuel with
    | O => None
    | S fuel' =>
        let parents := parentElements H listSelector limit in
        let scrapedData := process_parents H fields limit parents scrapedData in
        if (length parents =? 0)%nat || (length parents <=? length scrapedData)%nat
        then Some scrapedData
        else scrapeList_loop H listSelector fields limit fuel' scrapedData
    end
  else Some scrapedData.

(** [window.scrapeList({ listSelector, fields, limit })]; the function is
    declared [async] but never awaits. *)
Definition scrapeList (H : Host) (listSelector : string) (fields : Fields)
    (limit : nat) (fuel : nat) : option (list ScrapedRecord) :=
  scrapeList_loop H listSelector fields limit fuel [].

(** ** Sample pages

    A small selector engine and a few pages, used to run the script. *)

Module Sample.

Definition upper_char (c : ascii) : ascii :=
  let n := nat_of_ascii c in
  if (97 <=? n)%nat && (n <=? 122)%nat then ascii_of_nat (n - 32) else c.

Fixpoint upper (s : string) : string :=
  match s with
  | EmptyString => EmptyString
  | String c s' => String (upper_char c) (upper s')
  end.

(** Tag names from [BODY] down to the node, joined by [" > "]. *)
Fixpoint tag_path (doc : list Tree) (n : Node) : string :=
  let tag := from_option tagName "" (element_at doc n) in
  if bool_decide (tag = "BODY") then "BODY"
  else match n with
       | Child _ :: p =>
           match p with
           | Child _ :: _ => tag_path doc p +:+ " > " +:+ tag
           | _ => tag
           end
       | _ => tag
       end.

Definition attr (name : string) (el : Element) : option string :=
  snd <$> List.find (fun kv => bool_decide (kv.1 = name)) (attributes el).

(** The selectors understood: [#id], [.class], a chain of tag names joined
    by [" > "] starting at [BODY], and a single tag name. *)
Definition engine (doc : list Tree) (sel : string) (n : Node) : bool :=
  match element_at doc n with
  | None => false
  | Some el =>
      match sel with
      | String "#" id => bool_decide (attr "id" el = Some id)
      | String "." cls => bool_decide (cls ∈ classList el)
      | _ =>
          if JS.includes " > " sel then bool_decide (tag_path doc n = sel)
          else bool_decide (upper sel = tagName el)
      end
  end.

(** Relative references without a leading slash, resolved below the
    directory of the base: what [new URL(reference, base).href] gives for
    them. *)
Definition resolve (reference base : string) : string :=
  let parts := JS.split "/" base in
  if (length parts <=? 3)%nat then base +:+ "/" +:+ reference
  else String.concat "/" (removelast parts) +:+ "/" +:+ reference.

Definition element (tag : string) (attrs : list (string * string)) (classes : list string)
    (height width : Z) (text : string) : Element :=
  {| tagName := tag; attributes := attrs; classList := classes;
     offsetHeight := height; offsetWidth := width;
     innerText := Some text; textContent := text; innerHTML := text;
     srcset := default "" (List.find (fun _ => true)
                 (omap (fun kv => if bool_decide (kv.1 = "srcset") then Some kv.2 else None) attrs));
     src := default "" (List.find (fun _ => true)
                 (omap (fun kv => if bool_decide (kv.1 = "src") then Some kv.2 else None) attrs)) |}.

Definition leaf (el : Element) : Tree := TNode el None [].
Definition node (el : Element) (kids : list Tree) : Tree := TNode el None kids.

(** A page made of a [BODY] with the given children, shown in a window of
    1000 by 600 at [https://shop.example/catalog/page.html]. *)
Definition page (body_kids : list Tree) (hit : Z * Z -> Z -> Z -> option Node) : Host :=
  let doc := [node (element "HTML" [] [] 2000 1000 "")
                   [node (element "BODY" [] [] 2000 1000 "") body_kids]] in
  {| tree := doc;
     matches := engine doc;
     elementFromPoint := hit;
     innerWidth := 1000; innerHeight := 600;
     scrollMaxX := 0; scrollMaxY := 1400;
     origin := "https://shop.example";
     href := "https://shop.example/catalog/page.html";
     URL_href := resolve |}.

Definition body : Node := [Child 0; Child 0].
Definition hit_body (st : Scroll) (x y : Z) : option Node := Some body.

(** Three cards of 300 by 300, each alone in a wrapper of its own. *)
Definition card : Tree := leaf (element "DIV" [] ["card"] 300 300 "card").
Definition wrapper : Tree := node (element "DIV" [] ["wrapper"] 300 300 "card") [card].
Definition card_at (i : nat) : Node := [Child 0; Child i; Child 0; Child 0].
Definition wrapper_at (i : nat) : Node := [Child i; Child 0; Child 0].

Definition hit_cards (st : Scroll) (x y : Z) : option Node :=
  if (x <? 300)%Z then Some (card_at 0)
  else if (x <? 600)%Z then Some (card_at 1)
  else if (x <? 900)%Z then Some (card_at 2)
  else Some body.

Definition cards_page : Host := page [wrapper; wrapper; wrapper] hit_cards.
Definition cards : list Node := [card_at 0; card_at 1; card_at 2].



(** One product with three images and three lines of text. *)
Definition img_descending : Tree :=
  leaf (element "IMG" [("srcset", "b.jpg 1024w, a.jpg 480w")] [] 10 10 "").
Definition img_ascending : Tree :=
  leaf (element "IMG" [("srcset", "a.jpg 480w, b.jpg 1024w")] [] 10 10 "").
Definition img_inline : Tree :=
  leaf (element "IMG" [("src", "data:image/png;base64,AAAA")] [] 10 10 "").
Definition img_plain : Tree :=
  leaf (element "IMG" [("src", "https://shop.example/c.png")] [] 10 10 "").

Definition product (imgs : list Tree) : Tree :=
  node (element "DIV" [] ["item"] 10 10 (" Lamp " +:+ newline +:+ newline +:+ "9.99")) imgs.

Definition product_page (imgs : list Tree) : Host := page [product imgs] hit_body.
Definition product_at : Node := [Child 0; Child 0; Child 0].
Definition img_at (i : nat) : Node := Child i :: product_at.

Definition gallery_page : Host := product_page [img_plain; img_inline; img_plain].

(** A link with a relative reference. *)
Definition link : Tree :=
  leaf (element "A" [("href", "item.html"); ("title", "details")] ["more"] 10 10 " More ").
Definition link_page : Host := page [link] hit_body.
Definition link_fields : Fields :=
  [("more", {| fselector := ".more"; attribute := Some "href"; shadow := false |})].

(** Three articles with a title each; only the first two have a price. *)
Definition title (t : string) : Tree := leaf (element "H2" [] ["title"] 10 10 t).
Definition price (t : string) : Tree := leaf (element "SPAN" [] ["price"] 10 10 t).
Definition article (kids : list Tree) : Tree := node (element "ARTICLE" [] ["item"] 10 10 "") kids.
Definition catalog_page : Host :=
  page [article [title "Lamp"; price "9.99"];
        article [title "Desk"; price "120"];
        article [title "Vase"]] hit_body.
Definition catalog_fields : Fields :=
  [("title", {| fselector := ".title"; attribute := Some "innerText"; shadow := false |});
   ("price", {| fselector := ".price"; attribute := Some "innerText"; shadow := false |})].

(** A list of five entries of the same class, the first one with an id. *)
Definition entry (attrs : list (string * string)) : Tree :=
  node (element "LI" attrs ["entry"] 10 10 "") [title "Lamp"].
Definition five_entries : Host :=
  page [node (element "UL" [] ["list"] 10 10 "")
             [entry [("id", "first")]; entry []; entry []; entry []; entry []]] hit_body.
Definition list_at : Node := [Child 0; Child 0; Child 0].
Definition entry_at (i : nat) : Node := Child i :: list_at.

(** Ten uniform entries. *)
Definition ten_entries : Host := page (replicate 10 (entry [])) hit_body.
Definition entry_fields : Fields :=
  [("name", {| fselector := ".title"; attribute := Some "innerText"; shadow := false |})].

(** Two siblings with different tags. *)
Definition two_tags : Host :=
  page [leaf (element "DIV" [] [] 10 10 ""); leaf (element "SPAN" [] [] 10 10 "")] hit_body.
Definition div_at : Node := [Child 0; Child 0; Child 0].
Definition span_at : Node := [Child 1; Child 0; Child 0].

(** A custom element whose title lives in its open shadow tree. *)
Definition shadow_page : Host :=
  page [TNode (element "X-CARD" [] [] 10 10 "") (Some (open, [title "Lamp"])) []] hit_body.
Definition shadow_host : Node := [Child 0; Child 0; Child 0].
Definition shadow_title : Node := Child 0 :: Shadow :: shadow_host.
Definition shadow_fields : Fields :=
  [("title", {| fselector := "x-card >> .title"; attribute := Some "innerText";
                shadow := true |})].

End Sample.

(** ** The other functions of the script *)

(** The accumulator of the reduction in [getBiggestElement]: a matched
    element, or the placeholder [{ offsetHeight: 0, offsetWidth: 0 }] it
    starts from ([None]). *)
Definition area_of (H : Host) (max : option Node) : Z :=
  match max with
  | Some elem => area H elem
  | None => 0%Z
  end.

(** [getBiggestElement(selector)] *)
Definition getBiggestElement (H : Host) (selector : string) : option Node :=
  foldl (fun max elem => if (area_of H max <? area H elem)%Z then Some elem else max)
        None (querySelectorAll H document selector).

(** *** Auto-List Extractor *)















(** The matches of a selector that are large enough to count
    ([elements] in [updateMaximumWithPoint]). *)
Definition qualifying (H : Host) (p : HeuristicParams) (sel : string) : list Node :=
  List.filter (fun element => (area H element >? minArea p)%Z)
              (querySelectorAll H document sel).

(** A selector that sampling can put in [maxSelector]: the structural
    selector of an element hit at a grid point, with at least three and
    fewer than [maxCountPerPage] large matches. *)
Definition sampled (H : Host) (p : HeuristicParams) (sel : string) : Prop :=
  ∃ (st : Scroll) (point : Z * Z) (e : Node),
    point ∈ getGrid H
    ∧ elementFromPoint H st point.1 point.2 = Some e
    ∧ sel = GetSelectorStructural H e
    ∧ (3 <= length (qualifying H p sel) < maxCountPerPage p)%nat.


(** The invariant of sampling: the score kept is not negative and the
    selector kept is the initial one or a sampled one. *)
Definition selection_inv (H : Host) (p : HeuristicParams) (m : MaxSelector) : Prop :=
  (0 <= metric m)%Q ∧ (selector m = "body" ∨ sampled H p (selector m)).

(** The records a pass of [scrapeList] can push: those of the containers
    that yield at least one field, in the order of the containers. *)
Definition populated_records (H : Host) (fields : Fields) (parents : list Node)
    : list ScrapedRecord :=
  List.filter (fun r => (0 <? keys_length r)%nat) (scrape_container H fields <$> parents).

(** The labels of the fields whose element is found under a container. *)
Definition resolved_labels (H : Host) (fields : Fields) (parent : Node) : list string :=
  (List.filter (fun entry : string * FieldConfig =>
      bool_decide (is_Some (queryShadowDOM H parent
                              (default "" (last (JS.split ">>" (fselector entry.2)))))))
    fields).*1.


(** *** More sample pages *)

Module Sample2.

(** Three list entries of which only the first has a title. *)
Definition bare_entry : Tree := Sample.leaf (Sample.element "LI" [] ["entry"] 10 10 "").
Definition sparse_entries : Host :=
  Sample.page [Sample.entry []; bare_entry; bare_entry] Sample.hit_body.

(** Three list entries without any title. *)
Definition bare_entries : Host :=
  Sample.page [bare_entry; bare_entry; bare_entry] Sample.hit_body.


End Sample2.

(** * Properties of the script *)

(** ** Strings *)

Example split_srcset :
  JS.split ", " "a.jpg 480w, b.jpg 1024w" = ["a.jpg 480w"; "b.jpg 1024w"].
Proof. reflexivity. Qed.

Example trim_line : JS.trim "  two words	 " = "two words".
Proof. reflexivity. Qed.

Example pad_index : JS.padStart0 4 (JS.String_of 12) = "0012".
Proof. reflexivity. Qed.

(** ** Selector Generator *)

Section SelectorGenerator.
Context (H : Host).

(** The equation of the source: [BODY] stops the recursion, otherwise the
    parent's selector is extended when there is a parent element. *)
Lemma GetSelectorStructural_unfold (element : Node) :
  GetSelectorStructural H element =
    if bool_decide (prop H tagName "" element = "BODY") then "BODY"
    else match parentElement element with
         | Some p => GetSelectorStructural H p +:+ " > " +:+ prop H tagName "" element
         | None => prop H tagName "" element
         end.
Proof. destruct element as [|[i|] [|[j|] p]]; reflexivity. Qed.

Lemma parentElement_parentNode (e p : Node) :
  parentElement e = Some p -> parentNode e = Some p.
Proof. destruct e as [|[i|] [|[j|] q]]; simpl; congruence. Qed.

Lemma same_parent_same_parentElement (a b : Node) :
  parentNode a = parentNode b -> parentElement a = parentElement b.
Proof.
  destruct a as [|[i|] [|[j|] q]], b as [|[i'|] [|[j'|] q']]; simpl; congruence.
Qed.

(** C8 (as the code has it): the selector of an element that is not [BODY]
    and has a parent element is the parent's selector, then [" > "], then
    the element's own tag name; two siblings get the same selector when
    they have the same tag name. *)
Theorem structural_selector_step (e p : Node) :
  parentElement e = Some p ->
  (prop H tagName "" e ≠ "BODY" ->
   GetSelectorStructural H e
   = GetSelectorStructural H p +:+ " > " +:+ prop H tagName "" e)
  ∧ (∀ e', parentNode e' = parentNode e ->
           prop H tagName "" e' = prop H tagName "" e ->
           GetSelectorStructural H e' = GetSelectorStructural H e).
Proof.
  intros Hp. split.
  - intros Htag. rewrite GetSelectorStructural_unfold, Hp.
    rewrite bool_decide_eq_false_2 by done. reflexivity.
  - intros e' Hsib Htag.
    rewrite (GetSelectorStructural_unfold e'), (GetSelectorStructural_unfold e).
    rewrite (same_parent_same_parentElement _ _ Hsib), Htag. reflexivity.
Qed.

End SelectorGenerator.

(** On the page [two_tags] the [DIV] has the parent element [BODY]; its
    selector is [BODY]'s plus one step, and the [DIV] is its own sibling. *)
Lemma structural_selector_step_witness :
  parentElement Sample.div_at = Some Sample.body
  ∧ GetSelectorStructural Sample.two_tags Sample.div_at = "BODY > DIV".
Proof.
  split; [reflexivity|].
  destruct (structural_selector_step Sample.two_tags Sample.div_at Sample.body eq_refl)
    as [Hstep _].
  rewrite Hstep; [reflexivity|]. vm_compute. discriminate.
Defined.

(** C8, counterexample: a [DIV] and a [SPAN] are siblings under [BODY] and
    their selectors differ. *)
Lemma siblings_with_different_selectors :
  parentElement Sample.div_at = Some Sample.body
  ∧ parentElement Sample.span_at = Some Sample.body
  ∧ GetSelectorStructural Sample.two_tags Sample.div_at = "BODY > DIV"
  ∧ GetSelectorStructural Sample.two_tags Sample.span_at = "BODY > SPAN"
  ∧ GetSelectorStructural Sample.two_tags Sample.div_at
    ≠ GetSelectorStructural Sample.two_tags Sample.span_at.
Proof. repeat split; try reflexivity. vm_compute. discriminate. Qed.

(** ** Heuristic Locator *)

(** [forEach] returns [undefined], so the guard of the loop is never truthy. *)
Lemma generalize_guard_falsy (out : list Node) :
  JS.truthy (generalize_guard out) = false.
Proof.
  unfold generalize_guard, JS.and_then, JS.forEach.
  destruct (JS.every different (parentElement <$> out)); reflexivity.
Qed.

Lemma generalize_returns_input (fuel : nat) (out : list Node) :
  generalize fuel out = Some out.
Proof. destruct fuel; simpl; rewrite generalize_guard_falsy; reflexivity. Qed.

(** C1 (what the code does): the generalization loop never runs a
    substitution round, whatever the match set; on the page with three
    cards, whose parents are three distinct wrappers, the cards themselves
    are returned, where the loop as commented makes one substitution and
    returns the wrappers. *)
Theorem generalization_never_substitutes :
  (∀ fuel out, generalize fuel out = Some out)
  ∧ parentElement <$> Sample.cards = Some <$> (Sample.wrapper_at <$> [0; 1; 2]%nat)
  ∧ NoDup (parentElement <$> Sample.cards)
  ∧ scrapableHeuristics Sample.cards_page default_params 0 (0, 120)%Z
    = ((0, 120)%Z, JS.Ok (Some Sample.cards))
  ∧ generalize_as_commented 1 Sample.cards = Some (Sample.wrapper_at <$> [0; 1; 2]%nat).
Proof.
  split; [exact generalize_returns_input|].
  split; [reflexivity|].
  split; [apply (bool_decide_unpack _); vm_compute; exact I|].
  split; vm_compute; reflexivity.
Qed.

Section ScrollOffset.
Context (H : Host) (p : HeuristicParams).






End ScrollOffset.



(** ** Record Extractor *)

(** With a non-empty [srcset] the URL is cut out of its last candidate. *)
Lemma imgUrl_srcset (H : Host) (x : Node) :
  JS.truthy_string (prop H srcset "" x) = true ->
  imgUrl H x
  = head (JS.split " " (default "" (last (JS.split ", " (prop H srcset "" x))))).
Proof. unfold imgUrl. intros ->. reflexivity. Qed.

(** C3 (what the code does): for [srcset="b.jpg 1024w, a.jpg 480w"] the
    key [img_0] holds [a.jpg], the last candidate and the narrower one; the
    widest is only found when it is listed last. *)
Theorem srcset_takes_last_candidate :
  prop (Sample.product_page [Sample.img_descending]) srcset "" (Sample.img_at 0)
  = "b.jpg 1024w, a.jpg 480w"
  ∧ imgUrl (Sample.product_page [Sample.img_descending]) (Sample.img_at 0) = Some "a.jpg"
  ∧ (∃ r, scrape (Sample.product_page [Sample.img_descending]) (Some ".item") 0 (0, 0)%Z
          = ((0, 0)%Z, JS.Ok (Some [r]))
          ∧ r !! "img_0" = Some (JS.str "a.jpg"))
  ∧ widest_candidate "b.jpg 1024w, a.jpg 480w" = Some "b.jpg"
  ∧ imgUrl (Sample.product_page [Sample.img_ascending]) (Sample.img_at 0) = Some "b.jpg"
  ∧ widest_candidate "a.jpg 480w, b.jpg 1024w" = Some "b.jpg".
Proof.
  split; [reflexivity|]. split; [reflexivity|].
  split; [|repeat split; vm_compute; reflexivity].
  eexists. split; [vm_compute; reflexivity|]. vm_compute. reflexivity.
Qed.

(** ** Schema Extractor: value extraction *)

Section ValueExtraction.
Context (H : Host).


End ValueExtraction.



(** ** List Extractor *)

Section ListExtractor.
Context (H : Host) (fields : Fields).

(** When every container yields a non-empty record, one pass appends the
    records of the first containers, as many as the limit still allows. *)
Lemma process_parents_populated (limit : nat) (parents : list Node)
    (scrapedData : list ScrapedRecord) :
  Forall (fun c => 0 < keys_length (scrape_container H fields c))%nat parents ->
  process_parents H fields limit parents scrapedData
  = scrapedData
    ++ (scrape_container H fields <$> take (limit - length scrapedData) parents).
Proof.
  intros Hall. revert scrapedData.
  induction Hall as [|c parents Hc _ IH]; intros scrapedData; simpl.
  - by rewrite take_nil, app_nil_r.
  - destruct (Nat.leb_spec limit (length scrapedData)) as [Hle|Hlt].
    + replace (limit - length scrapedData)%nat with 0%nat by lia.
      by rewrite app_nil_r.
    + apply Nat.ltb_lt in Hc. rewrite Hc, IH, length_app. simpl.
      replace (limit - length scrapedData)%nat
        with (S (limit - (length scrapedData + 1)))%nat by lia.
      simpl. by rewrite <- app_assoc.
Qed.

(** C7: when every accepted container yields at least one field, one pass
    of the loop is enough and the result holds the records of the first
    [min limit n] of the [n] accepted containers, in their order. *)
Theorem scrapeList_first_records (listSelector : string) (limit fuel : nat) :
  Forall (fun c => 0 < keys_length (scrape_container H fields c))%nat
         (parentElements H listSelector limit) ->
  scrapeList H listSelector fields limit (S fuel)
  = Some (scrape_container H fields <$> take limit (parentElements H listSelector limit))
  ∧ length (scrape_container H fields <$> take limit (parentElements H listSelector limit))
    = (limit `min` length (parentElements H listSelector limit))%nat.
Proof.
  intros Hall. split; [|by rewrite length_fmap, length_take].
  unfold scrapeList. simpl.
  destruct limit as [|limit']; [reflexivity|]. simpl.
  set (limit := S limit'). set (parents := parentElements H listSelector limit) in *.
  rewrite (process_parents_populated limit parents [] Hall).
  change (length (@nil ScrapedRecord)) with 0%nat.
  rewrite Nat.sub_0_r, app_nil_l.
  destruct (length parents =? 0)%nat eqn:H0; [reflexivity|]. simpl.
  destruct (Nat.leb_spec (length parents) (length (scrape_container H fields <$> take limit parents)))
    as [Hle|Hgt]; [reflexivity|].
  rewrite length_fmap, length_take in Hgt.
  assert (Hlen : length (scrape_container H fields <$> take limit parents) = limit)
    by (rewrite length_fmap, length_take; lia).
  destruct fuel; simpl; rewrite Hlen;
    (replace (limit <? limit)%nat with false by (symmetry; apply Nat.ltb_ge; lia));
    reflexivity.
Qed.

End ListExtractor.

(** [limit = 3] over the ten uniform entries: the first three, one pass. *)
Lemma scrapeList_first_records_witness :
  Forall (fun c => 0 < keys_length (scrape_container Sample.ten_entries Sample.entry_fields c))%nat
         (parentElements Sample.ten_entries ".entry" 3)
  ∧ scrapeList Sample.ten_entries ".entry" Sample.entry_fields 3 1
    = Some (scrape_container Sample.ten_entries Sample.entry_fields
              <$> [[Child 0; Child 0; Child 0]; [Child 1; Child 0; Child 0];
                   [Child 2; Child 0; Child 0]]).
Proof.
  assert (Hall : Forall
    (fun c => 0 < keys_length (scrape_container Sample.ten_entries Sample.entry_fields c))%nat
    (parentElements Sample.ten_entries ".entry" 3)).
  { apply Forall_forall. intros c Hc. apply Nat.ltb_lt.
    revert c Hc. apply Forall_forall. apply (bool_decide_unpack _). vm_compute. exact I. }
  split; [exact Hall|].
  exact (proj1 (scrapeList_first_records Sample.ten_entries Sample.entry_fields ".entry" 3 0 Hall)).
Defined.

(** ** List Extractor: the similarity fallback *)

(** The double rounding never lifts the threshold above the class count. *)
Local Open Scope Z_scope.

Lemma floor_times_0_7_le (n : nat) : floor_times_0_7 n <= Z.of_nat n.
Proof.
  unfold floor_times_0_7.
  set (M := 6305039478318694).
  assert (HM : M * (2 ^ 52 + 1) <= 2 ^ 105) by (vm_compute; discriminate).
  assert (HM' : M <= 2 ^ 53) by (vm_compute; discriminate).
  assert (HM0 : 0 < M) by reflexivity.
  generalize (Nat2Z.is_nonneg n). generalize (Z.of_nat n). intros N HN.
  assert (Hsmall : Z.shiftr (N * M) 53 <= N).
  { rewrite Z.shiftr_div_pow2 by lia. apply Z.div_le_upper_bound; [lia|]. nia. }
  destruct (Z.eqb_spec (N * M) 0) as [HP0|HP0]; [exact Hsmall|].
  destruct (Z.leb_spec (Z.log2 (N * M) + 1) 53) as [Hb|Hb]; [exact Hsmall|].
  clear Hsmall.
  assert (HP : 0 < N * M) by nia.
  destruct (Z.log2_spec (N * M) HP) as [Hlo Hhi].
  set (s := Z.log2 (N * M) + 1 - 53) in *.
  assert (Hs : 1 <= s) by lia.
  replace (Z.log2 (N * M)) with (s + 52) in Hlo by lia.
  rewrite Z.shiftr_div_pow2 by lia.
  set (q := N * M / 2 ^ s).
  assert (H2s : 0 < 2 ^ s) by (apply Z.pow_pos_nonneg; lia).
  assert (Hq : q * 2 ^ s <= N * M).
  { unfold q. rewrite Z.mul_comm. apply Z.mul_div_le. lia. }
  assert (Hq52 : 2 ^ 52 <= q).
  { unfold q. apply Z.div_le_lower_bound; [lia|].
    rewrite Z.pow_add_r in Hlo by lia. lia. }
  set (q' := if _ : bool then q + 1 else q).
  assert (Hq' : 0 <= q' <= q + 1) by (unfold q'; case_match; lia).
  destruct (Z.leb_spec 53 s) as [H53|H53].
  - rewrite Z.shiftl_mul_pow2 by lia.
    set (A := 2 ^ (s - 53)).
    assert (HA : 0 < A) by (apply Z.pow_pos_nonneg; lia).
    assert (HsA : 2 ^ s = A * 2 ^ 53).
    { unfold A. rewrite <- Z.pow_add_r by lia. f_equal. lia. }
    rewrite HsA in Hq.
    assert ((q + 1) * A <= N); [|nia].
    assert ((q + 1) * A * (2 ^ 53 * 2 ^ 52) <= N * (2 ^ 53 * 2 ^ 52)); [|nia].
    transitivity (q * A * 2 ^ 53 * (2 ^ 52 + 1)); [nia|].
    transitivity (N * M * (2 ^ 52 + 1)); [nia|].
    change (2 ^ 53 * 2 ^ 52) with (2 ^ 105). nia.
  - rewrite Z.shiftr_div_pow2 by lia.
    set (B := 2 ^ (53 - s)).
    assert (HB : 0 < B) by (apply Z.pow_pos_nonneg; lia).
    assert (HsB : 2 ^ s * B = 2 ^ 53).
    { unfold B. rewrite <- Z.pow_add_r by lia. f_equal. lia. }
    assert (q' / B < N + 1); [|lia].
    apply Z.div_lt_upper_bound; [lia|].
    assert (Hs52 : 2 ^ s <= 2 ^ 52) by (apply Z.pow_le_mono_r; lia).
    assert ((q + 1) * 2 ^ s < B * (N + 1) * 2 ^ s); [|nia].
    replace (B * (N + 1) * 2 ^ s) with ((N + 1) * 2 ^ 53) by (rewrite <- HsB; ring).
    nia.
Qed.

Local Close Scope Z_scope.

(** Below 90 class tokens the threshold is the exact [floor (7 n / 10)]; at
    90 tokens the double product is just under 63 and the threshold is 62. *)
Lemma floor_times_0_7_exact (n : nat) :
  (n < 90)%nat -> floor_times_0_7 n = (7 * Z.of_nat n / 10)%Z.
Proof.
  intros Hn.
  assert (Hall : Forall (fun k => floor_times_0_7 k = (7 * Z.of_nat k / 10)%Z) (seq 0 90))
    by (apply (bool_decide_unpack _); vm_compute; exact I).
  rewrite Forall_forall in Hall. apply Hall, elem_of_seq. lia.
Qed.

Example floor_times_0_7_at_90 :
  floor_times_0_7 90 = 62%Z ∧ (7 * Z.of_nat 90 / 10 = 63)%Z.
Proof. split; reflexivity. Qed.

Lemma filter_all_true {A} (f : A -> bool) (l : list A) :
  Forall (fun x => f x = true) l -> List.filter f l = l.
Proof. induction 1 as [|x l Hx _ IH]; simpl; [done|]. by rewrite Hx, IH. Qed.

Section SimilarityFallback.
Context (H : Host).

Lemma similar_children_spec (container firstMatch c : Node) :
  c ∈ similar_children H container firstMatch
  <-> c ∈ children (tree H) container
      ∧ (floor_times_0_7 (length (prop H classList [] firstMatch))
         <= Z.of_nat (length (shared_classes H firstMatch c)))%Z.
Proof.
  unfold similar_children. rewrite list_elem_of_In, filter_In, <- list_elem_of_In.
  by rewrite Z.leb_le.
Qed.

(** C6 (as the code has it): with [limit > 1] and at most one container
    resolved, once the leading segment resolves a container and the full
    selector a first match, the accepted containers are exactly the direct
    children of that container sharing at least [Math.floor(0.7 * n)] of
    the first match's [n] class tokens, the first match itself among them
    when it is such a child; with the container or the first match
    missing, the resolved containers stay as they are. *)
Theorem similarity_fallback (listSelector : string) (limit : nat) :
  (1 < limit)%nat ->
  (length (queryShadowDOMAll H document listSelector) <= 1)%nat ->
  match queryShadowDOM H document
          (default "" (head (JS.trim <$> JS.split ">>" listSelector))),
        queryShadowDOM H document listSelector with
  | Some container, Some firstMatch =>
      parentElements H listSelector limit = similar_children H container firstMatch
      ∧ (∀ c, c ∈ parentElements H listSelector limit
              <-> c ∈ children (tree H) container
                  ∧ (floor_times_0_7 (length (prop H classList [] firstMatch))
                     <= Z.of_nat (length (shared_classes H firstMatch c)))%Z)
      ∧ (firstMatch ∈ children (tree H) container ->
         firstMatch ∈ parentElements H listSelector limit)
  | _, _ =>
      parentElements H listSelector limit = queryShadowDOMAll H document listSelector
  end.
Proof.
  intros Hlimit Hfew. unfold parentElements.
  apply Nat.ltb_lt in Hlimit. apply Nat.leb_le in Hfew. rewrite Hlimit, Hfew. simpl.
  destruct (queryShadowDOM H document (default "" _)) as [container|]; [|done].
  destruct (queryShadowDOM H document listSelector) as [firstMatch|]; [|done].
  split; [done|]. split; [intros c; apply similar_children_spec|].
  intros Hchild. apply similar_children_spec. split; [done|].
  unfold shared_classes. rewrite filter_all_true.
  - apply floor_times_0_7_le.
  - apply Forall_forall. intros cls Hcls. by apply bool_decide_eq_true_2.
Qed.

End SimilarityFallback.

(** On [five_entries] the selector [ul >> #first] resolves one entry, so
    the fallback applies with the list as container and the first entry as
    template. *)
Lemma similarity_fallback_witness :
  (1 < 10)%nat
  ∧ (length (queryShadowDOMAll Sample.five_entries document "ul >> #first") <= 1)%nat
  ∧ parentElements Sample.five_entries "ul >> #first" 10
    = similar_children Sample.five_entries Sample.list_at (Sample.entry_at 0).
Proof.
  assert (Hlimit : (1 < 10)%nat) by lia.
  assert (Hfew : (length (queryShadowDOMAll Sample.five_entries document "ul >> #first") <= 1)%nat)
    by (vm_compute; lia).
  split; [exact Hlimit|]. split; [exact Hfew|].
  pose proof (similarity_fallback Sample.five_entries "ul >> #first" 10 Hlimit Hfew) as Hf.
  destruct (queryShadowDOM Sample.five_entries document (default "" _)) as [container|] eqn:Hc;
    [|vm_compute in Hc; discriminate Hc].
  destruct (queryShadowDOM Sample.five_entries document "ul >> #first") as [firstMatch|] eqn:Hm;
    [|vm_compute in Hm; discriminate Hm].
  vm_compute in Hc, Hm. injection Hc as <-. injection Hm as <-.
  exact (proj1 Hf).
Defined.

(** C6, counterexample: the list selector matches one entry, the list has
    four other direct children and each shares every class token of the
    template, yet five containers are accepted: the template is one of them. *)
Lemma template_counts_among_containers :
  queryShadowDOMAll Sample.five_entries document "ul >> #first" = [Sample.entry_at 0]
  ∧ queryShadowDOM Sample.five_entries document "ul >> #first" = Some (Sample.entry_at 0)
  ∧ children (tree Sample.five_entries) Sample.list_at
    = Sample.entry_at 0 :: (Sample.entry_at <$> [1; 2; 3; 4]%nat)
  ∧ Forall (fun c => shared_classes Sample.five_entries (Sample.entry_at 0) c
                     = prop Sample.five_entries classList [] (Sample.entry_at 0))
           (Sample.entry_at <$> [1; 2; 3; 4]%nat)
  ∧ parentElements Sample.five_entries "ul >> #first" 10
    = Sample.entry_at <$> [0; 1; 2; 3; 4]%nat
  ∧ length (parentElements Sample.five_entries "ul >> #first" 10) ≠ 4%nat.
Proof.
  repeat split; try reflexivity.
  - repeat constructor.
  - vm_compute. discriminate.
Qed.

(** ** The element tree *)

Lemma contains_unfold (a b : Node) :
  contains a b
  = bool_decide (a = b) || match b with Child _ :: p => contains a p | _ => false end.
Proof. by destruct b. Qed.

Lemma contains_refl (a : Node) : contains a a = true.
Proof. rewrite contains_unfold. by rewrite bool_decide_eq_true_2. Qed.

Lemma contains_child (i : nat) (a b : Node) :
  contains (Child i :: a) b = true -> contains a b = true.
Proof.
  induction b as [|[j|] b IH]; rewrite contains_unfold; intros Hc;
    apply orb_true_iff in Hc as [Heq%bool_decide_eq_true_1 | Hin]; try done.
  - injection Heq as _ <-.
    rewrite contains_unfold. by rewrite contains_refl, orb_true_r.
  - rewrite contains_unfold. by rewrite (IH Hin), orb_true_r.
Qed.

(** What a node contains lies in the same tree. *)
Lemma contains_getRootNode (a b : Node) :
  contains a b = true -> getRootNode b = getRootNode a.
Proof.
  induction b as [|[j|] b IH]; rewrite contains_unfold; intros Hc;
    apply orb_true_iff in Hc as [<-%bool_decide_eq_true_1 | Hin]; try done.
  by apply IH.
Qed.

Lemma subtree_nodes_eq (n : Node) (el : Element) sh (ks : list Tree) :
  subtree_nodes n (TNode el sh ks) = n :: forest_nodes n 0 ks.
Proof.
  simpl. f_equal. generalize 0%nat.
  induction ks as [|k ks IH]; intros i; simpl; [done|]. by rewrite IH.
Qed.

(** The nodes listed below [n] are contained in [n]. *)
Lemma subtree_nodes_contains (t : Tree) (n e : Node) :
  e ∈ subtree_nodes n t -> contains n e = true.
Proof.
  revert t n e. fix IH 1. intros [el sh ks] n e.
  rewrite subtree_nodes_eq. intros [-> | Hin]%elem_of_cons; [apply contains_refl|].
  revert Hin. generalize 0%nat.
  induction ks as [|k ks IHks]; intros i; simpl.
  - by intros ?%elem_of_nil.
  - intros [Hin | Hin]%elem_of_app.
    + apply (contains_child i), (IH k), Hin.
    + by apply (IHks (S i)).
Qed.

Lemma forest_nodes_contains (ks : list Tree) (i : nat) (n e : Node) :
  e ∈ forest_nodes n i ks -> contains n e = true.
Proof.
  revert i. induction ks as [|k ks IH]; intros i; simpl.
  - by intros ?%elem_of_nil.
  - intros [Hin | Hin]%elem_of_app.
    + by apply (contains_child i), (subtree_nodes_contains k).
    + by apply (IH (S i)).
Qed.

Lemma querySelectorAll_contains (H : Host) (root e : Node) (sel : string) :
  e ∈ querySelectorAll H root sel -> contains root e = true.
Proof.
  unfold querySelectorAll, descendants.
  rewrite list_elem_of_In, filter_In, <- list_elem_of_In. intros [Hin _].
  destruct (view (tree H) root) as [v|]; [|by apply elem_of_nil in Hin].
  by apply forest_nodes_contains in Hin.
Qed.

(** ** Schema Extractor: minimal bounding elements *)

Lemma filter_none {A} (l : list A) : List.filter (fun _ => false) l = [].
Proof. by induction l. Qed.

Lemma isUniqueChild_top (elements : list Node) (e : Node) :
  parentNode e = None -> isUniqueChild elements e = false.
Proof. unfold isUniqueChild. intros ->. by rewrite filter_none. Qed.

Lemma mbe_walk_unfold (elements : list Node) (candidate : Node) :
  mbe_walk elements candidate
  = if isUniqueChild elements candidate then
      match candidate with
      | Child _ :: p => mbe_walk elements p
      | _ => None
      end
    else Some candidate.
Proof. by destruct candidate. Qed.

(** The walk never ends on [null]: where there is no parent node the guard
    [isUniqueChild] already fails. *)
Lemma mbe_walk_is_Some (elements : list Node) (candidate : Node) :
  is_Some (mbe_walk elements candidate).
Proof.
  induction candidate as [|[i|] p IH]; rewrite mbe_walk_unfold.
  - by rewrite isUniqueChild_top.
  - destruct (isUniqueChild elements (Child i :: p)); [exact IH|by eexists].
  - by rewrite isUniqueChild_top.
Qed.

(** With a single seed element the walk climbs from any node containing it
    up to the root of the tree. *)
Lemma mbe_walk_single (e candidate : Node) :
  contains candidate e = true ->
  mbe_walk [e] candidate = Some (getRootNode candidate).
Proof.
  induction candidate as [|[i|] p IH]; intros Hc; rewrite mbe_walk_unfold.
  - by rewrite isUniqueChild_top.
  - apply contains_child in Hc.
    replace (isUniqueChild [e] (Child i :: p)) with true
      by (unfold isUniqueChild; simpl; by rewrite Hc).
    by apply IH.
  - by rewrite isUniqueChild_top.
Qed.

Lemma getMBEs_length (elements : list Node) :
  length (getMBEs elements) = length elements.
Proof. unfold getMBEs. by rewrite length_fmap. Qed.

Lemma map_result_total {A B} (f : A -> JS.result B) (g : A -> B) (l : list A) :
  (∀ a, a ∈ l -> f a = JS.Ok (g a)) -> map_result f l = JS.Ok (g <$> l).
Proof.
  induction l as [|a l IH]; intros Hf; simpl; [done|].
  rewrite (Hf a) by left. simpl.
  rewrite IH by (intros; apply Hf; by right). done.
Qed.

Lemma map_result_fmap {A B C} (f : B -> JS.result C) (g : A -> B) (l : list A) :
  map_result f (g <$> l) = map_result (fun a => f (g a)) l.
Proof. induction l as [|a l IH]; csimpl; [done|]. by rewrite IH. Qed.

Section MinimalBoundingElements.
Context (H : Host).

Lemma mbe_value_bounded (m : Node) (config : FieldConfig) :
  mbe_value H (Some m) config = JS.Ok (bounded_value H m config).
Proof. done. Qed.

Lemma omap_result_total (object : Fields) (f : FieldConfig -> JS.result JS.value)
    (g : FieldConfig -> JS.value) :
  (∀ config, f config = JS.Ok (g config)) ->
  omap_result object f = JS.Ok (omap_record object g).
Proof.
  intros Hf. unfold omap_result, omap_record.
  rewrite (map_result_total _ (fun kv => (kv.1, g kv.2))).
  - done.
  - intros kv _. by rewrite Hf.
Qed.

(** The longest list belongs to some field. *)
Lemma max_length_attained (lists : Fields) :
  lists ≠ [] ->
  ∃ kv, kv ∈ lists
    ∧ length (findAllElements H kv.2)
      = foldr Nat.max 0%nat ((fun kv => length (findAllElements H kv.2)) <$> lists).
Proof.
  induction lists as [|kv lists IH]; [done|]. intros _.
  destruct lists as [|kv' lists'].
  - exists kv. split; [by left|]. simpl. lia.
  - destruct IH as (kv0 & Hin & Hlen); [done|].
    set (rest := foldr Nat.max 0%nat _) in Hlen.
    change (foldr Nat.max 0%nat
              ((fun kv => length (findAllElements H kv.2)) <$> kv :: kv' :: lists'))
      with (length (findAllElements H kv.2) `max` rest)%nat.
    destruct (Nat.max_spec (length (findAllElements H kv.2)) rest) as [[_ ->] | [_ ->]].
    + exists kv0. split; [by right|done].
    + exists kv. split; [by left|done].
Qed.

(** A mapping with at least one field has a seed field. *)
Lemma seed_exists (lists : Fields) :
  lists ≠ [] -> is_Some (getSeedKey H lists ≫= get_field lists).
Proof.
  intros Hne. destruct (max_length_attained lists Hne) as (kv & Hin & Hlen).
  unfold getSeedKey.
  set (longest := fun kv : string * FieldConfig => (length (findAllElements H kv.2) =? _)%nat).
  destruct (List.filter longest lists) as [|kv0 l] eqn:Hf.
  - assert (In kv (List.filter longest lists)) as Hin'.
    { apply filter_In. split; [by apply list_elem_of_In|]. by apply Nat.eqb_eq. }
    rewrite Hf in Hin'. destruct Hin'.
  - simpl. unfold get_field.
    assert (In kv0 lists) as Hin0.
    { eapply (proj1 (filter_In longest kv0 lists)). rewrite Hf. by left. }
    destruct (List.find (fun kv1 => bool_decide (kv1.1 = kv0.1)) lists) as [c|] eqn:Hfind.
    + by eexists.
    + eapply find_none in Hfind; [|exact Hin0].
      by rewrite bool_decide_eq_true_2 in Hfind.
Qed.

(** The first phase never faults on a mapping with a field, and gives one
    record per seed element. *)
Lemma mbeResults_total (lists : Fields) (seedConfig : FieldConfig) :
  getSeedKey H lists ≫= get_field lists = Some seedConfig ->
  mbeResults H lists
  = JS.Ok ((fun e => omap_record lists
                       (bounded_value H (default e (mbe_walk (findAllElements H seedConfig) e))))
             <$> findAllElements H seedConfig).
Proof.
  intros Hseed. unfold mbeResults, getMBEs. rewrite Hseed.
  set (seedElements := findAllElements H seedConfig).
  rewrite map_result_fmap.
  apply map_result_total. intros e _.
  destruct (mbe_walk_is_Some seedElements e) as [m ->]. simpl.
  by apply omap_result_total.
Qed.

(** C10 (as the code has it): a mapping with a field has a seed field, the
    first phase returns one record per seed element, and when the seed
    field resolves exactly one element the walk ends at the root of the
    tree that holds it; for a seed selector handed straight to the document
    that root is the document node, and then every field resolved the same
    way contributes the first element of its list. *)
Theorem single_seed_is_bounded_by_its_root (lists : Fields) :
  lists ≠ [] ->
  ∃ seedConfig,
    getSeedKey H lists ≫= get_field lists = Some seedConfig
    ∧ (∃ records, mbeResults H lists = JS.Ok records
                  ∧ length records = length (findAllElements H seedConfig))
    ∧ (∀ e, findAllElements H seedConfig = [e] ->
         getMBEs [e] = [Some (getRootNode e)]
         ∧ mbeResults H lists
           = JS.Ok [omap_record lists (bounded_value H (getRootNode e))]
         ∧ (plain_query seedConfig = true -> getRootNode e = document)
         ∧ (∀ config, plain_query config = true ->
              bounded_value H document config
              = match head (findAllElements H config) with
                | Some elem => getElementValue H (Some elem) (attribute config)
                | None => JS.undefined
                end)).
Proof.
  intros Hne. destruct (seed_exists lists Hne) as [seedConfig Hseed].
  exists seedConfig. split; [done|].
  pose proof (mbeResults_total lists seedConfig Hseed) as Hres.
  split.
  { eexists. split; [exact Hres|]. by rewrite length_fmap. }
  intros e He. rewrite He in Hres.
  pose proof (mbe_walk_single e e (contains_refl e)) as Hwalk.
  split; [by unfold getMBEs; simpl; rewrite Hwalk|].
  split; [by rewrite Hres; simpl; rewrite Hwalk|].
  split.
  - intros Hplain. unfold findAllElements, plain_query in *. rewrite Hplain in He.
    assert (e ∈ querySelectorAll H document (fselector seedConfig)) as Hin
      by (rewrite He; left).
    apply querySelectorAll_contains, contains_getRootNode in Hin. exact Hin.
  - intros config Hplain. unfold bounded_value, findAllElements, plain_query in *.
    rewrite Hplain.
    destruct (querySelectorAll H document (fselector config)) as [|elem l] eqn:Hq; [done|].
    assert (elem ∈ querySelectorAll H document (fselector config)) as Hin
      by (rewrite Hq; left).
    apply querySelectorAll_contains in Hin. simpl. by rewrite Hin.
Qed.

End MinimalBoundingElements.

(** On [link_page] the one field resolves one element: one record. *)
Lemma single_seed_is_bounded_by_its_root_witness :
  Sample.link_fields ≠ []
  ∧ ∃ records, mbeResults Sample.link_page Sample.link_fields = JS.Ok records
               ∧ length records = 1%nat.
Proof.
  assert (Hne : Sample.link_fields ≠ []) by discriminate.
  split; [exact Hne|].
  destruct (single_seed_is_bounded_by_its_root Sample.link_page Sample.link_fields Hne)
    as (seedConfig & Hseed & (records & Hres & Hlen) & _).
  exists records. split; [exact Hres|].
  vm_compute in Hseed. injection Hseed as <-. exact Hlen.
Defined.

(** C10, counterexample: the seed field of [shadow_fields] resolves exactly
    one element, inside the shadow tree of the custom element; the walk
    ends at that shadow root and not at the document node. *)
Lemma seed_in_shadow_tree_is_bounded_by_shadow_root :
  getSeedKey Sample.shadow_page Sample.shadow_fields = Some "title"
  ∧ (Sample.shadow_fields.*2 ≫= findAllElements Sample.shadow_page) = [Sample.shadow_title]
  ∧ getMBEs [Sample.shadow_title] = [Some (Shadow :: Sample.shadow_host)]
  ∧ getMBEs [Sample.shadow_title] ≠ [Some document].
Proof. repeat split; try reflexivity. vm_compute. discriminate. Qed.

(** ** Record Extractor: the keys of a record *)

Lemma String_of_inj (i j : nat) : JS.String_of i = JS.String_of j -> i = j.
Proof.
  unfold JS.String_of. intros Heq.
  apply (f_equal NilEmpty.uint_of_string) in Heq. rewrite !NilEmpty.usu in Heq.
  injection Heq as Heq. by apply Unsigned.to_uint_inj.
Qed.

Lemma Number_of_String_of (i : nat) : JS.Number_of (JS.String_of i) = Some i.
Proof.
  unfold JS.Number_of, JS.String_of. rewrite NilEmpty.usu. simpl.
  by rewrite Unsigned.of_to.
Qed.

(** Leading zeros do not change the number read. *)
Lemma Number_of_zeros (k : nat) (s : string) :
  JS.Number_of (JS.zeros k +:+ s) = JS.Number_of s.
Proof.
  induction k as [|k IH]; [done|].
  rewrite <- IH. unfold JS.Number_of. simpl.
  by destruct (NilEmpty.uint_of_string (JS.zeros k +:+ s)).
Qed.

Lemma img_key_inj (i j : nat) : img_key i = img_key j -> i = j.
Proof. unfold img_key. intros [= Heq]. change ("" +:+ ?s) with s in Heq. by apply String_of_inj. Qed.

Lemma record_key_inj (i j : nat) : record_key i = record_key j -> i = j.
Proof.
  unfold record_key, JS.padStart0. intros [= Heq]. change ("" +:+ ?s) with s in Heq.
  apply (f_equal JS.Number_of) in Heq.
  rewrite !Number_of_zeros, !Number_of_String_of in Heq. by injection Heq.
Qed.

Lemma img_key_not_record_key (i j : nat) : img_key i ≠ record_key j.
Proof. discriminate. Qed.

Lemma reduce_i_snoc {A B} (f : B -> A -> nat -> B) (init : B) (a : list A) (x : A) :
  reduce_i f init (a ++ [x]) = f (reduce_i f init a) x (length a).
Proof.
  unfold reduce_i. rewrite imap_app, foldl_app. simpl.
  by rewrite Nat.add_0_r.
Qed.

Section RecordKeys.
Context (H : Host).

(** [img_<i>] is present exactly when the [i]-th image of the whole list has
    an accepted URL. *)
Lemma image_fields_img (imgs : list Node) (i : nat) :
  image_fields H imgs !! img_key i = (imgs !! i) ≫= (fun x => accepted (imgUrl H x)).
Proof.
  unfold image_fields. induction imgs as [|x imgs IH] using rev_ind; [done|].
  rewrite reduce_i_snoc. unfold spread at 1. rewrite lookup_union.
  destruct (decide (i = length imgs)) as [-> | Hne].
  - rewrite IH, lookup_ge_None_2 by lia.
    rewrite lookup_app_r, Nat.sub_diag by lia. simpl.
    destruct (accepted (imgUrl H x)); [by rewrite lookup_singleton_eq|done].
  - replace ((match accepted (imgUrl H x) with
              | Some v => {[img_key (length imgs) := v]}
              | None => ∅
              end : ScrapedRecord) !! img_key i) with (@None JS.value).
    + rewrite (left_id None _), IH.
      destruct (decide (i < length imgs)%nat).
      * by rewrite lookup_app_l.
      * by rewrite !lookup_ge_None_2 by (rewrite ?length_app; simpl; lia).
    + destruct (accepted (imgUrl H x)); [|done].
      symmetry. apply lookup_singleton_ne. intros Heq%img_key_inj. lia.
Qed.

Lemma image_fields_record (imgs : list Node) (i : nat) :
  image_fields H imgs !! record_key i = None.
Proof.
  unfold image_fields. induction imgs as [|x imgs IH] using rev_ind; [done|].
  rewrite reduce_i_snoc. unfold spread at 1. rewrite lookup_union, IH.
  destruct (accepted (imgUrl H x)); [|done].
  rewrite lookup_singleton_ne by apply img_key_not_record_key. done.
Qed.

(** [record_<i>], padded to four digits, holds the [i]-th line, trimmed. *)
Lemma text_fields_record (lines : list string) (i : nat) :
  text_fields lines !! record_key i = (fun x => JS.str (JS.trim x)) <$> lines !! i.
Proof.
  unfold text_fields. induction lines as [|x lines IH] using rev_ind; [done|].
  rewrite reduce_i_snoc.
  destruct (decide (i = length lines)) as [-> | Hne].
  - rewrite lookup_insert_eq, lookup_app_r, Nat.sub_diag by lia. done.
  - rewrite lookup_insert_ne by (intros Heq%record_key_inj; lia). rewrite IH.
    destruct (decide (i < length lines)%nat).
    + by rewrite lookup_app_l.
    + by rewrite !lookup_ge_None_2 by (rewrite ?length_app; simpl; lia).
Qed.

Lemma text_fields_img (lines : list string) (i : nat) :
  text_fields lines !! img_key i = None.
Proof.
  unfold text_fields. induction lines as [|x lines IH] using rev_ind; [done|].
  rewrite reduce_i_snoc, lookup_insert_ne; [done|].
  intros Heq. by apply (img_key_not_record_key i (length lines)).
Qed.

(** An image with no [srcset] and a [data:] source gets no URL. *)
Lemma imgUrl_inline (x : Node) :
  prop H srcset "" x = "" ->
  JS.includes "data:" (prop H src "" x) = true ->
  imgUrl H x = None.
Proof. unfold imgUrl. by intros -> ->. Qed.

(** C9: in the record of an element with text, [img_<i>] is indexed by the
    position of the image among all contained [<img>] nodes and is absent
    when that image is not accepted (so absent for an image with a [data:]
    source and no [srcset], whose index is skipped), while [record_NNNN]
    holds the trimmed [NNNN]-th line whatever the images are. *)
Theorem record_keys_are_positions (record : Node) (text : string) :
  prop H innerText None record = Some text ->
  ∃ r, scrape_record H record = JS.Ok r
    ∧ (∀ i, r !! img_key i
            = (querySelectorAll H record "img" !! i) ≫= (fun x => accepted (imgUrl H x)))
    ∧ (∀ i x, querySelectorAll H record "img" !! i = Some x ->
              prop H srcset "" x = "" ->
              JS.includes "data:" (prop H src "" x) = true ->
              r !! img_key i = None)
    ∧ (∀ i, r !! record_key i
            = (fun line => JS.str (JS.trim line)) <$> JS.split newline text !! i).
Proof.
  intros Htext. unfold scrape_record. rewrite Htext. eexists. split; [done|].
  assert (Himg : ∀ i,
    spread (image_fields H (querySelectorAll H record "img"))
           (text_fields (JS.split newline text)) !! img_key i
    = (querySelectorAll H record "img" !! i) ≫= (fun x => accepted (imgUrl H x))).
  { intros i. unfold spread. rewrite lookup_union, text_fields_img, (left_id None _).
    apply image_fields_img. }
  split; [exact Himg|]. split.
  - intros i x Hx Hsrcset Hdata. rewrite Himg, Hx. simpl.
    by rewrite imgUrl_inline.
  - intros i. unfold spread.
    rewrite lookup_union, image_fields_record, (right_id None _).
    apply text_fields_record.
Qed.

End RecordKeys.

(** Three images, the middle one inline: the keys are [img_0] and [img_2]. *)
Lemma record_keys_are_positions_witness :
  prop Sample.gallery_page innerText None Sample.product_at
  = Some (" Lamp " +:+ newline +:+ newline +:+ "9.99")
  ∧ ∃ r, scrape_record Sample.gallery_page Sample.product_at = JS.Ok r
      ∧ r !! "img_0" = Some (JS.str "https://shop.example/c.png")
      ∧ r !! "img_1" = None
      ∧ r !! "img_2" = Some (JS.str "https://shop.example/c.png")
      ∧ r !! "record_0000" = Some (JS.str "Lamp")
      ∧ r !! "record_0001" = Some (JS.str "")
      ∧ r !! "record_0002" = Some (JS.str "9.99").
Proof.
  split; [reflexivity|].
  destruct (record_keys_are_positions Sample.gallery_page Sample.product_at _ eq_refl)
    as (r & Hr & Himg & _ & Htext).
  exists r. split; [exact Hr|].
  pose proof (Himg 0%nat) as H0. pose proof (Himg 1%nat) as H1. pose proof (Himg 2%nat) as H2.
  pose proof (Htext 0%nat) as T0. pose proof (Htext 1%nat) as T1. pose proof (Htext 2%nat) as T2.
  repeat split; assumption.
Defined.

(** ** Schema Extractor: the positional fallback *)

#[local] Arguments getElementValue : simpl never.

Section SparseArrays.
Context {A : Type}.
Implicit Types (a : list (option A)) (x : A).

Lemma length_set_at a n x : length (set_at a n x) = (length a `max` S n)%nat.
Proof.
  unfold set_at. destruct (Nat.ltb_spec n (length a)).
  - rewrite length_insert. lia.
  - rewrite !length_app, length_replicate. simpl. lia.
Qed.

Lemma get_at_set_at_eq a n x : get_at (set_at a n x) n = Some x.
Proof.
  unfold get_at, set_at. destruct (Nat.ltb_spec n (length a)).
  - by rewrite list_lookup_insert_eq.
  - rewrite lookup_app_r by lia.
    rewrite lookup_app_r by (rewrite length_replicate; lia).
    rewrite length_replicate.
    by replace (n - length a - (n - length a))%nat with 0%nat by lia.
Qed.

Lemma get_at_set_at_ne a n i x : i ≠ n -> get_at (set_at a n x) i = get_at a i.
Proof.
  intros Hne. unfold get_at, set_at. destruct (Nat.ltb_spec n (length a)).
  - by rewrite list_lookup_insert_ne.
  - destruct (decide (i < length a)%nat); [by rewrite lookup_app_l|].
    rewrite (lookup_ge_None_2 a i) by lia.
    rewrite lookup_app_r by lia.
    destruct (decide (i - length a < n - length a)%nat).
    + rewrite lookup_app_l by (rewrite length_replicate; lia).
      by rewrite lookup_replicate_2.
    + rewrite lookup_app_r by (rewrite length_replicate; lia).
      rewrite length_replicate. by rewrite lookup_ge_None_2 by (simpl; lia).
Qed.

End SparseArrays.

Section PositionalFallback.
Context (H : Host) (lists : Fields).

Local Abbreviation value_of key element :=
  (getElementValue H (Some element) (get_field lists key ≫= attribute)).

(** One assignment [results[index][key] = value]. *)
Lemma zip_element_spec (key : string) (results : list (option ScrapedRecord))
    (n : nat) (element : Node) :
  length (zip_element H lists key results n element) = (length results `max` S n)%nat
  ∧ get_at (zip_element H lists key results n element) n
    = Some (<[ key := value_of key element ]> (default ∅ (get_at results n)))
  ∧ ∀ i, i ≠ n -> get_at (zip_element H lists key results n element) i = get_at results i.
Proof.
  unfold zip_element. destruct (get_at results n) as [r|] eqn:Hr.
  - rewrite Hr. split; [apply length_set_at|].
    split; [apply get_at_set_at_eq|]. intros i Hi. by apply get_at_set_at_ne.
  - rewrite get_at_set_at_eq. split; [rewrite !length_set_at; lia|].
    split; [apply get_at_set_at_eq|].
    intros i Hi. by rewrite !get_at_set_at_ne.
Qed.

(** One field laid over the results. *)
Lemma zip_field_spec (key : string) (results : list (option ScrapedRecord))
    (elements : list Node) :
  let results' :=
    reduce_i (fun results element index => zip_element H lists key results index element)
             results elements in
  length results' = (length results `max` length elements)%nat
  ∧ ∀ i, get_at results' i
         = match elements !! i with
           | Some element =>
               Some (<[ key := value_of key element ]> (default ∅ (get_at results i)))
           | None => get_at results i
           end.
Proof.
  induction elements as [|x elements IH] using rev_ind.
  - unfold reduce_i. simpl. split; [lia|done].
  - simpl in *. rewrite reduce_i_snoc. destruct IH as [IHlen IHget].
    destruct (zip_element_spec key
                (reduce_i (fun results element index =>
                             zip_element H lists key results index element) results elements)
                (length elements) x) as (Hlen & Hat & Hother).
    split; [rewrite Hlen, IHlen, length_app; simpl; lia|].
    intros i. destruct (decide (i = length elements)) as [-> | Hne].
    + rewrite Hat, IHget, lookup_ge_None_2 by lia.
      by rewrite lookup_app_r, Nat.sub_diag by lia.
    + rewrite Hother, IHget by done.
      destruct (decide (i < length elements)%nat).
      * by rewrite lookup_app_l.
      * by rewrite !lookup_ge_None_2 by (rewrite ?length_app; simpl; lia).
Qed.

End PositionalFallback.

Lemma Map_set_fresh {V} (key : string) (v : V) (m : list (string * V)) :
  key ∉ m.*1 -> Map_set key v m = m ++ [(key, v)].
Proof.
  induction m as [|kv m IH]; csimpl; [done|].
  intros Hnot. rewrite not_elem_of_cons in Hnot. destruct Hnot as [Hne Hnot].
  rewrite bool_decide_eq_false_2 by done. by rewrite IH.
Qed.

(** With distinct keys the [Map] lists the fields in their order. *)
Lemma foundElements_distinct {V} (g : FieldConfig -> V) (fs : Fields)
    (acc : list (string * V)) :
  NoDup (acc.*1 ++ fs.*1) ->
  foldl (fun m kv => Map_set kv.1 (g kv.2) m) acc fs
  = acc ++ ((fun kv => (kv.1, g kv.2)) <$> fs).
Proof.
  revert acc. induction fs as [|kv fs IH]; intros acc Hnd; csimpl.
  - by rewrite app_nil_r.
  - rewrite Map_set_fresh.
    + rewrite IH; [by rewrite <- app_assoc|].
      rewrite fmap_app. csimpl. by rewrite <- app_assoc.
    + apply NoDup_app in Hnd as (_ & Hdisj & _).
      intros Hin. apply (Hdisj _ Hin). by left.
Qed.

Lemma get_field_distinct (lists : Fields) (key : string) (config : FieldConfig) :
  NoDup lists.*1 -> (key, config) ∈ lists -> get_field lists key = Some config.
Proof.
  unfold get_field. induction lists as [|kv lists IH]; csimpl; intros Hnd Hin.
  - by apply elem_of_nil in Hin.
  - apply NoDup_cons in Hnd as [Hnot Hnd].
    apply elem_of_cons in Hin as [<- | Hin].
    + simpl. by rewrite bool_decide_eq_true_2.
    + rewrite bool_decide_eq_false_2; [by apply IH|].
      intros Heq. apply Hnot. rewrite Heq.
      apply list_elem_of_fmap. by exists (key, config).
Qed.

Lemma omap_dense {A} (f : nat -> A) (results : list (option A)) :
  (∀ i, (i < length results)%nat -> get_at results i = Some (f i)) ->
  omap id results = f <$> seq 0 (length results).
Proof.
  intros Hget.
  assert (results = (fun i => Some (f i)) <$> seq 0 (length results)) as Heq.
  { apply list_eq. intros i. rewrite list_lookup_fmap.
    destruct (decide (i < length results)%nat) as [Hi|Hi].
    - rewrite lookup_seq_lt by done. simpl.
      specialize (Hget i Hi). unfold get_at in Hget.
      destruct (results !! i) as [[r|]|]; simpl in Hget; congruence.
    - rewrite lookup_seq_ge by lia. by rewrite lookup_ge_None_2 by lia. }
  rewrite Heq at 1. generalize (seq 0 (length results)). intros l.
  induction l as [|i l IH]; csimpl; [done|]. by rewrite IH.
Qed.

(** The test [mbeResults.some(result => Object.values(result).some(v => v === undefined))]. *)
Lemma some_undefined_iff (records : list ScrapedRecord) :
  Exists (fun r => JS.undefined ∈ values r) records
  <-> existsb (fun result => existsb (fun v => bool_decide (v = JS.undefined)) (values result))
              records = true.
Proof.
  rewrite Exists_exists, existsb_exists. split.
  - intros (r & Hr & Hin). exists r. split; [by apply list_elem_of_In|].
    apply existsb_exists. exists JS.undefined.
    split; [by apply list_elem_of_In|]. by apply bool_decide_eq_true_2.
  - intros (r & Hr & Hex). exists r. split; [by apply list_elem_of_In|].
    apply existsb_exists in Hex as (v & Hv & ->%bool_decide_eq_true_1).
    by apply list_elem_of_In.
Qed.

Section PositionalZip.
Context (H : Host).

Lemma longest_snoc (fs : Fields) (kv : string * FieldConfig) :
  longest H (fs ++ [kv]) = (longest H fs `max` length (findAllElements H kv.2))%nat.
Proof.
  unfold longest. induction fs as [|kv' fs IH]; csimpl; [lia|].
  rewrite IH. lia.
Qed.

Lemma item_at_snoc (fs : Fields) (kv : string * FieldConfig) (i : nat) :
  item_at H (fs ++ [kv]) i
  = match findAllElements H kv.2 !! i with
    | Some element =>
        <[ kv.1 := getElementValue H (Some element) (attribute kv.2) ]> (item_at H fs i)
    | None => item_at H fs i
    end.
Proof. unfold item_at. by rewrite foldl_app. Qed.

(** Beyond the longest list an item has no field. *)
Lemma item_at_beyond (fs : Fields) (i : nat) :
  (longest H fs <= i)%nat -> item_at H fs i = ∅.
Proof.
  induction fs as [|kv fs IH] using rev_ind; [done|].
  rewrite longest_snoc, item_at_snoc. intros Hi.
  rewrite lookup_ge_None_2 by lia. apply IH. lia.
Qed.

(** Item [i] has the field's key exactly when the field's list has an
    [i]-th element, with the value extracted from that element. *)
Lemma item_at_lookup (fs : Fields) (i : nat) (key : string) :
  NoDup fs.*1 ->
  (key ∉ fs.*1 -> item_at H fs i !! key = None)
  ∧ (∀ config, (key, config) ∈ fs ->
       item_at H fs i !! key
       = (fun element => getElementValue H (Some element) (attribute config))
           <$> findAllElements H config !! i).
Proof.
  induction fs as [|kv fs IH] using rev_ind; intros Hnd.
  - split; [done|]. by intros config ?%elem_of_nil.
  - rewrite fmap_app in Hnd. apply NoDup_app in Hnd as (Hnd & Hdisj & _).
    destruct (IH Hnd) as [IHnot IHin]. rewrite item_at_snoc.
    assert (kv.1 ∉ fs.*1) as Hfresh by (intros Hin; apply (Hdisj _ Hin); by left).
    split.
    + rewrite fmap_app, not_elem_of_app. csimpl. rewrite not_elem_of_cons.
      intros [Hnot [Hne _]].
      destruct (findAllElements H kv.2 !! i); [rewrite lookup_insert_ne by done|]; auto.
    + intros config [Hin | Hin]%elem_of_app.
      * assert (kv.1 ≠ key) as Hne.
        { intros <-. apply Hfresh, list_elem_of_fmap. by exists (kv.1, config). }
        destruct (findAllElements H kv.2 !! i); [rewrite lookup_insert_ne by done|]; auto.
      * apply list_elem_of_singleton in Hin. subst kv. simpl in *.
        destruct (findAllElements H config !! i); simpl.
        -- by rewrite lookup_insert_eq.
        -- by apply IHnot.
Qed.

(** The fields laid out one after the other give the items by position. *)
Lemma zip_fields_spec (lists fs : Fields) :
  (∀ kv, kv ∈ fs -> get_field lists kv.1 = Some kv.2) ->
  let results :=
    foldl (fun results ke =>
             reduce_i (fun results element index => zip_element H lists ke.1 results index element)
                      results ke.2)
          [] ((fun kv => (kv.1, findAllElements H kv.2)) <$> fs) in
  length results = longest H fs
  ∧ ∀ i, get_at results i
         = if decide (i < longest H fs)%nat then Some (item_at H fs i) else None.
Proof.
  induction fs as [|kv fs IH] using rev_ind; intros Hfield.
  - split; [done|]. intros i.
    destruct (decide (i < longest H [])%nat) as [Hlt|]; [|done].
    unfold longest in Hlt. simpl in Hlt. lia.
  - simpl in *. rewrite fmap_app, foldl_app. simpl.
    destruct IH as [IHlen IHget]; [intros; apply Hfield, elem_of_app; by left|].
    set (results := foldl _ [] _) in *.
    destruct (zip_field_spec H lists kv.1 results (findAllElements H kv.2)) as [Hlen Hget].
    simpl in Hlen, Hget.
    split; [rewrite Hlen, IHlen, longest_snoc; done|].
    intros i. rewrite Hget, IHget, longest_snoc, item_at_snoc.
    rewrite (Hfield kv) by (apply elem_of_app; right; by left). simpl.
    destruct (findAllElements H kv.2 !! i) as [element|] eqn:Hel.
    + apply lookup_lt_Some in Hel.
      repeat case_decide; try lia; simpl; [done|].
      by rewrite item_at_beyond by lia.
    + apply lookup_ge_None_1 in Hel. repeat case_decide; try done; lia.
Qed.

(** With distinct field labels the second phase is the positional zip. *)
Lemma independent_scraping_zip (lists : Fields) :
  NoDup lists.*1 -> independent_scraping H lists = positional_zip H lists.
Proof.
  intros Hnd. unfold independent_scraping, positional_zip.
  rewrite (foundElements_distinct (findAllElements H) lists []) by done. simpl.
  destruct (zip_fields_spec lists lists) as [Hlen Hget].
  { intros [key config] Hin. by apply get_field_distinct. }
  simpl in Hlen, Hget. f_equal.
  rewrite <- Hlen. apply omap_dense. intros i Hi.
  rewrite Hget, decide_True by lia. done.
Qed.


End PositionalZip.


Example catalog_is_zipped :
  ∃ r0 r1 r2,
    scrapeSchema Sample.catalog_page Sample.catalog_fields = JS.Ok [r0; r1; r2]
    ∧ r2 !! "title" = Some (JS.str "Vase") ∧ r2 !! "price" = None.
Proof. do 3 eexists. split; [vm_compute; reflexivity|]. split; reflexivity. Qed.

(** * Further properties of the script *)

Section Biggest.
Context (H : Host).

Lemma biggest_fold (l : list Node) (acc : option Node) :
  let b := foldl (fun max elem => if (area_of H max <? area H elem)%Z then Some elem else max)
                 acc l in
  (area_of H acc <= area_of H b)%Z
  ∧ (∀ e, e ∈ l -> (area H e <= area_of H b)%Z)
  ∧ (b = acc
     ∨ ∃ pre e post, l = pre ++ e :: post ∧ b = Some e
         ∧ (area_of H acc < area H e)%Z
         ∧ ∀ x, x ∈ pre -> (area H x < area H e)%Z).
Proof.
  revert acc. induction l as [|x l IH]; intros acc; simpl.
  - split; [lia|]. split; [by intros e ?%elem_of_nil|by left].
  - destruct (Z.ltb_spec (area_of H acc) (area H x)) as [Hlt|Hge].
    + destruct (IH (Some x)) as (Hacc & Hall & Hb). simpl in *.
      split; [lia|]. split.
      * intros e [-> | Hin]%elem_of_cons; [done|by apply Hall].
      * right. destruct Hb as [Hb | (pre & e & post & -> & Hb & Hlt' & Hpre)].
        -- exists [], x, l. rewrite Hb. repeat split; [done|]. by intros ? ?%elem_of_nil.
        -- exists (x :: pre), e, post. rewrite Hb. repeat split; [lia|].
           intros y [-> | Hy]%elem_of_cons; [done|by apply Hpre].
    + destruct (IH acc) as (Hacc & Hall & Hb).
      split; [done|]. split.
      * intros e [-> | Hin]%elem_of_cons; [lia|by apply Hall].
      * destruct Hb as [Hb | (pre & e & post & -> & Hb & Hlt' & Hpre)]; [by left|].
        right. exists (x :: pre), e, post. rewrite Hb. repeat split; [done|].
        intros y [-> | Hy]%elem_of_cons; [lia|by apply Hpre].
Qed.

(** X1: [getBiggestElement] returns a match of the largest area, the first
    of them in document order and of positive area; when no match has a
    positive area it returns the placeholder it started from, which is not
    an element of the page. *)
Theorem getBiggestElement_spec (selector : string) :
  (∀ e, e ∈ querySelectorAll H document selector ->
        (area H e <= area_of H (getBiggestElement H selector))%Z)
  ∧ match getBiggestElement H selector with
    | Some e =>
        (0 < area H e)%Z
        ∧ ∃ pre post, querySelectorAll H document selector = pre ++ e :: post
            ∧ ∀ x, x ∈ pre -> (area H x < area H e)%Z
    | None => ∀ e, e ∈ querySelectorAll H document selector -> (area H e <= 0)%Z
    end.
Proof.
  unfold getBiggestElement.
  destruct (biggest_fold (querySelectorAll H document selector) None) as (_ & Hall & Hb).
  simpl in *. split; [exact Hall|].
  destruct Hb as [Hb | (pre & e & post & Hl & Hb & Hlt & Hpre)]; rewrite Hb in *.
  - exact Hall.
  - split; [done|]. by exists pre, post.
Qed.

End Biggest.

Section Grid.
Context (H : Host).

Lemma grid_axis_spec (limit v : Z) :
  v ∈ grid_axis limit <-> (0 <= v < limit)%Z ∧ (v mod 200 = 0)%Z.
Proof.
  unfold grid_axis. rewrite list_elem_of_fmap. split.
  - intros (k & -> & Hk%elem_of_seq).
    split; [|by rewrite Z.mod_mul].
    assert (Z.of_nat k < (limit + 199) / 200)%Z as Hlt by lia.
    pose proof (Z.mul_div_le (limit + 199) 200 ltac:(lia)). lia.
  - intros [[H0 Hlt] Hmod]. exists (Z.to_nat (v / 200)).
    pose proof (Z.div_mod v 200 ltac:(lia)) as Hdm. rewrite Hmod in Hdm.
    assert (0 <= v / 200)%Z by (apply Z.div_pos; lia).
    split; [lia|]. apply elem_of_seq.
    assert (v / 200 < (limit + 199) / 200)%Z; [|lia].
    apply Z.div_lt_upper_bound; [lia|].
    pose proof (Z.mul_div_le (limit + 199) 200 ltac:(lia)).
    pose proof (Z.mod_pos_bound (limit + 199) 200 ltac:(lia)).
    pose proof (Z.div_mod (limit + 199) 200 ltac:(lia)). lia.
Qed.

(** X2: the sample points are exactly the points of the viewport whose
    coordinates are multiples of 200: none lies outside the window, and a
    window without width or height gives no point at all. *)
Theorem getGrid_spec (x y : Z) :
  (x, y) ∈ getGrid H
  <-> (0 <= x < innerWidth H)%Z ∧ (0 <= y < innerHeight H)%Z
      ∧ (x mod 200 = 0)%Z ∧ (y mod 200 = 0)%Z.
Proof.
  unfold getGrid. rewrite list_elem_of_bind. split.
  - intros (x' & (y' & Hxy & Hy)%list_elem_of_bind & Hx).
    apply list_elem_of_singleton in Hxy. injection Hxy as -> ->.
    apply grid_axis_spec in Hx, Hy. tauto.
  - intros (Hx & Hy & Hmx & Hmy). exists x. split; [|by apply grid_axis_spec].
    apply list_elem_of_bind. exists y. split; [by apply list_elem_of_singleton|].
    by apply grid_axis_spec.
Qed.

End Grid.

Lemma Math_max_spec (sizes : list Z) :
  sizes ≠ [] -> Math_max sizes ∈ sizes ∧ ∀ x, x ∈ sizes -> (x <= Math_max sizes)%Z.
Proof.
  unfold Math_max. destruct sizes as [|d sizes]; [done|]. intros _. simpl.
  assert (∀ l : list Z, (d <= foldr Z.max d l)%Z
            ∧ (foldr Z.max d l = d ∨ foldr Z.max d l ∈ l)
            ∧ ∀ x, x ∈ l -> (x <= foldr Z.max d l)%Z) as Hfold.
  { induction l as [|y l (Hd & Hin & Hall)]; simpl.
    - split; [lia|]. split; [by left|]. by intros x ?%elem_of_nil.
    - split; [lia|]. split.
      + destruct (Z.max_spec y (foldr Z.max d l)) as [[_ ->] | [_ ->]].
        * destruct Hin as [-> | Hin]; [by left|]. right. by right.
        * right. by left.
      + intros x [-> | Hx]%elem_of_cons; [lia|]. specialize (Hall x Hx). lia. }
  destruct (Hfold sizes) as (Hd & Hin & Hall). split.
  - destruct (Z.max_spec d (foldr Z.max d sizes)) as [[_ ->] | [_ ->]]; [|by left].
    destruct Hin as [-> | Hin]; [by left|by right].
  - intros x [-> | Hx]%elem_of_cons; [lia|]. specialize (Hall x Hx). lia.
Qed.

Lemma Math_min_spec (sizes : list Z) :
  sizes ≠ [] -> Math_min sizes ∈ sizes ∧ ∀ x, x ∈ sizes -> (Math_min sizes <= x)%Z.
Proof.
  unfold Math_min. destruct sizes as [|d sizes]; [done|]. intros _. simpl.
  assert (∀ l : list Z, (foldr Z.min d l <= d)%Z
            ∧ (foldr Z.min d l = d ∨ foldr Z.min d l ∈ l)
            ∧ ∀ x, x ∈ l -> (foldr Z.min d l <= x)%Z) as Hfold.
  { induction l as [|y l (Hd & Hin & Hall)]; simpl.
    - split; [lia|]. split; [by left|]. by intros x ?%elem_of_nil.
    - split; [lia|]. split.
      + destruct (Z.min_spec y (foldr Z.min d l)) as [[_ ->] | [_ ->]].
        * right. by left.
        * destruct Hin as [-> | Hin]; [by left|]. right. by right.
      + intros x [-> | Hx]%elem_of_cons; [lia|]. specialize (Hall x Hx). lia. }
  destruct (Hfold sizes) as (Hd & Hin & Hall). split.
  - destruct (Z.min_spec d (foldr Z.min d sizes)) as [[_ ->] | [_ ->]]; [by left|].
    destruct Hin as [-> | Hin]; [by left|by right].
  - intros x [-> | Hx]%elem_of_cons; [lia|]. specialize (Hall x Hx). lia.
Qed.

Section Score.
Context (H : Host).

(** X4: for a non-empty set of elements with areas that are not negative,
    the [size_deviation] score lies between 0 and 1 and is 1 exactly when all
    areas are equal; it is [NaN] only when every area is 0. *)
Theorem size_deviation_range (elements : list Node) :
  elements ≠ [] ->
  (∀ e, e ∈ elements -> (0 <= area H e)%Z) ->
  match score H size_deviation elements with
  | Some q =>
      (0 <= q)%Q ∧ (q <= 1)%Q
      ∧ ((q == 1)%Q <-> ∀ e e', e ∈ elements -> e' ∈ elements -> area H e = area H e')
  | None => ∀ e, e ∈ elements -> area H e = 0%Z
  end.
Proof.
  intros Hne Hpos. unfold score.
  set (sizes := area H <$> elements).
  assert (sizes ≠ []) as Hsizes by (unfold sizes; by destruct elements).
  destruct (Math_max_spec sizes Hsizes) as [Hmax_in Hmax].
  destruct (Math_min_spec sizes Hsizes) as [Hmin_in Hmin].
  assert (∀ e, e ∈ elements -> area H e ∈ sizes) as Hin
    by (intros e He; apply list_elem_of_fmap; by exists e).
  assert (0 <= Math_min sizes)%Z as Hmin0.
  { apply list_elem_of_fmap in Hmin_in as (e & -> & He). by apply Hpos. }
  assert (Math_min sizes <= Math_max sizes)%Z as Hle by (by apply Hmin).
  destruct (Z.eqb_spec (Math_max sizes) 0) as [H0 | H0].
  - intros e He. specialize (Hmax _ (Hin e He)). specialize (Hpos e He). lia.
  - set (mx := Math_max sizes) in *. set (mn := Math_min sizes) in *.
    assert (0 < mx)%Z as Hmx by lia.
    assert (0 < inject_Z mx)%Q as Hqmx
      by (change (inject_Z 0 < inject_Z mx)%Q; by rewrite <- Zlt_Qlt).
    assert (0 <= inject_Z (mx - mn) / inject_Z mx)%Q as Hd0.
    { apply Qle_shift_div_l; [done|]. rewrite Qmult_0_l.
      change (inject_Z 0 <= inject_Z (mx - mn))%Q. rewrite <- Zle_Qle. lia. }
    assert (inject_Z (mx - mn) / inject_Z mx <= 1)%Q as Hd1.
    { apply Qle_shift_div_r; [done|]. rewrite Qmult_1_l.
      rewrite <- Zle_Qle. lia. }
    split; [lra|]. split; [lra|]. split.
    + intros Hq e e' He He'.
      assert (inject_Z (mx - mn) / inject_Z mx == 0)%Q as Hz by lra.
      assert (inject_Z (mx - mn) == 0)%Q as Hnum.
      { rewrite <- (Qmult_div_r (inject_Z (mx - mn)) (inject_Z mx)) by lra.
        rewrite Hz. ring. }
      assert (mx - mn = 0)%Z as Heq by (apply (inject_Z_injective _ 0); exact Hnum).
      pose proof (Hmax _ (Hin e He)). pose proof (Hmin _ (Hin e He)).
      pose proof (Hmax _ (Hin e' He')). pose proof (Hmin _ (Hin e' He')). lia.
    + intros Hall.
      assert (mx = mn) as ->.
      { apply list_elem_of_fmap in Hmax_in as (e & -> & He).
        apply list_elem_of_fmap in Hmin_in as (e' & -> & He'). by apply Hall. }
      rewrite Z.sub_diag. unfold Qdiv. rewrite Qmult_0_l. ring.
Qed.

End Score.

Section Selection.
Context (H : Host) (p : HeuristicParams).

Lemma updateMaximumWithPoint_inv (st : Scroll) (m m' : MaxSelector) (point : Z * Z) :
  point ∈ getGrid H ->
  selection_inv H p m ->
  updateMaximumWithPoint H p st m point = JS.Ok m' ->
  selection_inv H p m'.
Proof.
  intros Hpt [Hm0 Hm]. unfold updateMaximumWithPoint.
  destruct (elementFromPoint H st point.1 point.2) as [e|] eqn:Hhit; [|done].
  fold (qualifying H p (GetSelectorStructural H e)).
  destruct (Nat.ltb_spec (length (qualifying H p (GetSelectorStructural H e))) 3);
    [by intros [= <-]|].
  destruct (score_gt _ _) eqn:Hgt; simpl; [|by intros [= <-]].
  destruct (Nat.ltb_spec (length (qualifying H p (GetSelectorStructural H e)))
                         (maxCountPerPage p)); [|by intros [= <-]].
  intros [= <-]. simpl.
  destruct (score H (metricType p) _) as [v|]; [|done]. simpl in *.
  apply negb_true_iff in Hgt.
  assert (¬ (v <= metric m)%Q) as Hnle
    by (intros Hle%Qle_bool_iff; congruence).
  apply Qnot_le_lt in Hnle.
  split; [by apply Qlt_le_weak, (Qle_lt_trans _ (metric m))|].
  right. exists st, point, e. repeat split; try done; lia.
Qed.

Lemma sample_grid_inv (st : Scroll) (grid : list (Z * Z)) (m m' : MaxSelector) :
  (∀ point, point ∈ grid -> point ∈ getGrid H) ->
  selection_inv H p m ->
  sample_grid H p st grid m = JS.Ok m' ->
  selection_inv H p m'.
Proof.
  revert m. induction grid as [|point grid IH]; intros m Hsub Hm; simpl.
  - by intros [= <-].
  - destruct (updateMaximumWithPoint H p st m point) as [m1|] eqn:Hu; [|done]. simpl.
    apply IH; [intros; apply Hsub; by right|].
    eapply updateMaximumWithPoint_inv; [|exact Hm|exact Hu]. apply Hsub. by left.
Qed.

Lemma sample_scrolls_inv (todo : list nat) (st st' : Scroll) (m m' : MaxSelector) :
  selection_inv H p m ->
  sample_scrolls H p todo st m = (st', JS.Ok m') ->
  selection_inv H p m'.
Proof.
  revert st m. induction todo as [|k todo IH]; intros st m Hm; simpl.
  - by intros [= _ <-].
  - destruct (sample_grid H p _ (getGrid H) m) as [m1|] eqn:Hg; [|done].
    apply IH. by eapply sample_grid_inv; [|exact Hm|exact Hg].
Qed.

(** X3: whenever [scrapableHeuristics] returns, the elements are those of
    one selector: the initial [body], or the structural selector of an
    element hit at a grid point that has at least three and fewer than
    [maxCountPerPage] large matches (so at least three elements come
    back); with [maxCountPerPage] at most 3 it is always [body]. *)
Theorem heuristics_selection (fuel : nat) (st st' : Scroll) (out : option (list Node)) :
  scrapableHeuristics H p fuel st = (st', JS.Ok out) ->
  ∃ sel, out = Some (querySelectorAll H document sel)
    ∧ (sel = "body"
       ∨ (sampled H p sel ∧ (3 <= length (querySelectorAll H document sel))%nat))
    ∧ ((maxCountPerPage p <= 3)%nat -> sel = "body").
Proof.
  unfold scrapableHeuristics. destruct st as [x y].
  destruct (sample_scrolls H p _ _ _) as [st1 [m|]] eqn:Hs; [|done].
  intros [= _ <-]. exists (selector m). rewrite generalize_returns_input.
  split; [done|].
  apply sample_scrolls_inv in Hs; [|split; [done|by left]].
  destruct Hs as [_ [Hbody | Hsampled]].
  - split; [by left|done].
  - assert (3 <= length (qualifying H p (selector m)) < maxCountPerPage p)%nat as Hq
      by (destruct Hsampled as (? & ? & ? & ? & ? & ? & ?); done).
    split; [|intros ?; exfalso; lia]. right. split; [done|].
    pose proof (List.filter_length_le (fun element => (area H element >? minArea p)%Z)
                  (querySelectorAll H document (selector m))) as Hlen.
    unfold qualifying in Hq. lia.
Qed.

End Selection.

Lemma split_aux_nonempty (sep s : string) (skip : nat) (cur : string) :
  JS.split_aux sep s skip cur ≠ [].
Proof.
  revert skip cur. induction s as [|c s IH]; intros skip cur; simpl; [done|].
  destruct skip; [|apply IH]. destruct (JS.starts_with sep (String c s)); [done|apply IH].
Qed.

Lemma split_first (sep s : string) : is_Some (JS.split sep s !! 0%nat).
Proof.
  unfold JS.split. pose proof (split_aux_nonempty sep s 0 "").
  destruct (JS.split_aux sep s 0 ""); [done|by eexists].
Qed.

Lemma map_result_fault {A B} (f : A -> JS.result B) (l : list A) :
  map_result f l = JS.TypeError <-> ∃ a, a ∈ l ∧ f a = JS.TypeError.
Proof.
  induction l as [|a l IH]; simpl.
  - split; [done|]. by intros (a & ?%elem_of_nil & _).
  - destruct (f a) as [b|] eqn:Hfa; simpl.
    + destruct (map_result f l) as [bs|]; simpl.
      * split; [done|]. intros (a' & [-> | Hin]%elem_of_cons & Ha'); [congruence|].
        exfalso. assert (JS.Ok bs = @JS.TypeError (list B)) as Hbad; [|done].
        apply IH. by exists a'.
      * split; [|done]. intros _. destruct (proj1 IH eq_refl) as (a' & Hin & Ha').
        exists a'. split; [by right|done].
    + split; [|done]. intros _. exists a. split; [by left|done].
Qed.

Lemma map_result_length {A B} (f : A -> JS.result B) (l : list A) (bs : list B) :
  map_result f l = JS.Ok bs -> length bs = length l.
Proof.
  revert bs. induction l as [|a l IH]; intros bs; simpl; [by intros [= <-]|].
  destruct (f a) as [b|]; [|done]. simpl.
  destruct (map_result f l) as [bs'|]; [|done]. simpl.
  intros [= <-]. simpl. by rewrite (IH bs').
Qed.

Section RecordShape.
Context (H : Host).

Lemma image_fields_keys (imgs : list Node) (k : string) :
  is_Some (image_fields H imgs !! k) -> ∃ i, k = img_key i ∧ (i < length imgs)%nat.
Proof.
  unfold image_fields. induction imgs as [|x imgs IH] using rev_ind.
  - unfold reduce_i. simpl. rewrite lookup_empty. by intros [? ?].
  - rewrite reduce_i_snoc. unfold spread at 1. rewrite lookup_union.
    rewrite length_app. simpl.
    destruct (accepted (imgUrl H x)) as [v|].
    + destruct (decide (k = img_key (length imgs))) as [-> | Hne].
      * intros _. exists (length imgs). split; [done|lia].
      * rewrite lookup_singleton_ne by done. rewrite (left_id None _).
        intros (i & -> & Hi)%IH. exists i. split; [done|lia].
    + rewrite lookup_empty, (left_id None _).
      intros (i & -> & Hi)%IH. exists i. split; [done|lia].
Qed.

Lemma text_fields_keys (lines : list string) (k : string) :
  is_Some (text_fields lines !! k) -> ∃ i, k = record_key i ∧ (i < length lines)%nat.
Proof.
  unfold text_fields. induction lines as [|x lines IH] using rev_ind.
  - unfold reduce_i. simpl. rewrite lookup_empty. by intros [? ?].
  - rewrite reduce_i_snoc, length_app. simpl.
    destruct (decide (k = record_key (length lines))) as [-> | Hne].
    + intros _. exists (length lines). split; [done|lia].
    + rewrite lookup_insert_ne by done.
      intros (i & -> & Hi)%IH. exists i. split; [done|lia].
Qed.

(** X6: the record of an element with text always has the key
    [record_0000] (an empty text still splits into one line), and its keys
    are exactly the [img_<i>] of the accepted images and the [record_<i>] of
    the lines: nothing else is ever put in a record. *)
Theorem scraped_record_keys (record : Node) (text : string) :
  prop H innerText None record = Some text ->
  ∃ r, scrape_record H record = JS.Ok r
    ∧ is_Some (r !! "record_0000")
    ∧ ∀ k, is_Some (r !! k)
           <-> (∃ i x, k = img_key i
                  ∧ querySelectorAll H record "img" !! i = Some x
                  ∧ is_Some (accepted (imgUrl H x)))
               ∨ (∃ i, k = record_key i ∧ (i < length (JS.split newline text))%nat).
Proof.
  intros Htext. unfold scrape_record. rewrite Htext. eexists. split; [done|].
  set (imgs := querySelectorAll H record "img"). set (lines := JS.split newline text).
  assert (Htxt : ∀ i, spread (image_fields H imgs) (text_fields lines) !! record_key i
                      = (fun x => JS.str (JS.trim x)) <$> lines !! i).
  { intros i. unfold spread.
    rewrite lookup_union, image_fields_record, (right_id None _).
    apply text_fields_record. }
  assert (Himg : ∀ i, spread (image_fields H imgs) (text_fields lines) !! img_key i
                      = (imgs !! i) ≫= (fun x => accepted (imgUrl H x))).
  { intros i. unfold spread. rewrite lookup_union, text_fields_img, (left_id None _).
    apply image_fields_img. }
  split.
  - change "record_0000" with (record_key 0). rewrite Htxt.
    destruct (split_first newline text) as [l Hl]. fold lines in Hl. by rewrite Hl.
  - intros k. split.
    + unfold spread. rewrite lookup_union.
      destruct (text_fields lines !! k) as [v|] eqn:Hk.
      * intros _. right. apply text_fields_keys. by rewrite Hk.
      * rewrite (left_id None _). intros Hsome.
        destruct (image_fields_keys imgs k Hsome) as (i & -> & Hi).
        left. rewrite image_fields_img in Hsome.
        destruct (imgs !! i) as [x|] eqn:Hx; [|by destruct Hsome].
        by exists i, x.
    + intros [(i & x & -> & Hx & Hacc) | (i & -> & Hi)].
      * rewrite Himg, Hx. done.
      * rewrite Htxt. destruct (lookup_lt_is_Some_2 lines i Hi) as [l ->]. by eexists.
Qed.

(** X5: [scrape] with a selector never touches the scroll offset; it
    returns one record per matched element when every match has
    [innerText], and raises exactly when some match has none. *)
Theorem scrape_with_selector (sel : string) (fuel : nat) (st : Scroll) :
  sel ≠ "" ->
  (scrape H (Some sel) fuel st).1 = st
  ∧ match (scrape H (Some sel) fuel st).2 with
    | JS.Ok (Some records) =>
        length records = length (querySelectorAll H document sel)
        ∧ ∀ e, e ∈ querySelectorAll H document sel -> prop H innerText None e ≠ None
    | JS.Ok None => False
    | JS.TypeError =>
        ∃ e, e ∈ querySelectorAll H document sel ∧ prop H innerText None e = None
    end.
Proof.
  intros Hsel. unfold scrape. simpl.
  replace (JS.truthy_string sel) with true by (by destruct sel).
  simpl. split; [done|].
  destruct (map_result (scrape_record H) (querySelectorAll H document sel)) as [rs|] eqn:Hm;
    simpl.
  - split; [by apply map_result_length in Hm|].
    intros e He Hnone.
    assert (map_result (scrape_record H) (querySelectorAll H document sel) = JS.TypeError)
      as Hf; [|congruence].
    apply map_result_fault. exists e. split; [done|].
    unfold scrape_record. by rewrite Hnone.
  - apply map_result_fault in Hm as (e & He & Hf). exists e. split; [done|].
    unfold scrape_record in Hf. by destruct (prop H innerText None e).
Qed.

End RecordShape.



(** A separator that occurs gives at least two pieces. *)
Lemma split_aux_includes (sep s cur : string) :
  sep ≠ "" ->
  JS.includes sep s = true -> (2 <= length (JS.split_aux sep s 0 cur))%nat.
Proof.
  intros Hsep. revert cur. induction s as [|c s IH]; intros cur.
  - simpl. rewrite orb_false_r. by destruct sep.
  - intros Hinc. simpl in Hinc. simpl JS.split_aux.
    destruct (JS.starts_with sep (String c s)) eqn:Hstart.
    + simpl. pose proof (split_aux_nonempty sep s (String.length sep - 1) "") as Hne.
      destruct (JS.split_aux sep s (String.length sep - 1) ""); [done|simpl; lia].
    + simpl in Hinc. by apply IH.
Qed.

Section ShadowResults.
Context (H : Host).

Lemma shadow_targets_root (n i : nat) (part : string) (el e : Node) :
  i ≠ 0%nat ->
  e ∈ shadow_targets H n i part el ->
  shadowRoot (tree H) el = Some (Shadow :: el) ∧ getRootNode e = Shadow :: el.
Proof.
  intros Hi. unfold shadow_targets.
  replace (i =? 0)%nat with false by (symmetry; by apply Nat.eqb_neq).
  destruct (shadowRoot (tree H) el) as [sr|] eqn:Hsr; [|by intros ?%elem_of_nil].
  assert (sr = Shadow :: el) as ->.
  { unfold shadowRoot in Hsr. repeat case_match; congruence. }
  case_bool_decide; [|by intros ?%elem_of_nil].
  intros Hin%querySelectorAll_contains%contains_getRootNode. done.
Qed.

Lemma findAll_parts_cons (n i : nat) (part : string) (parts : list string)
    (cur : list Node) :
  findAll_parts H n i (part :: parts) cur
  = if (length (cur ≫= shadow_targets H n i part) =? 0)%nat then []
    else findAll_parts H n (S i) parts (cur ≫= shadow_targets H n i part).
Proof. done. Qed.

Lemma findAll_parts_root (n i : nat) (parts : list string) (cur : list Node) (e : Node) :
  i ≠ 0%nat -> parts ≠ [] ->
  e ∈ findAll_parts H n i parts cur ->
  ∃ host, shadowRoot (tree H) host = Some (Shadow :: host) ∧ getRootNode e = Shadow :: host.
Proof.
  revert i cur. induction parts as [|part parts IH]; intros i cur Hi Hne; [done|].
  rewrite findAll_parts_cons.
  destruct (length (cur ≫= shadow_targets H n i part) =? 0)%nat;
    [by intros ?%elem_of_nil|].
  destruct parts as [|part' parts'].
  - simpl. intros (el & Hin & _)%list_elem_of_bind.
    exists el. by eapply shadow_targets_root.
  - by apply IH.
Qed.

(** X7: every element found for a field that descends into shadow trees
    ([shadow] set and [>>] in the selector) lies in the shadow tree of a
    host with an open shadow root, and the document does not contain it. *)
Theorem shadow_results_outside_document (config : FieldConfig) (e : Node) :
  plain_query config = false ->
  e ∈ findAllElements H config ->
  (∃ host, shadowRoot (tree H) host = Some (Shadow :: host)
           ∧ getRootNode e = Shadow :: host)
  ∧ contains document e = false.
Proof.
  unfold plain_query, findAllElements. intros Hplain. rewrite Hplain.
  apply orb_false_iff in Hplain as [_ Hinc%negb_false_iff].
  pose proof (split_aux_includes ">>" (fselector config) "" ltac:(done) Hinc) as Hlen.
  fold (JS.split ">>" (fselector config)) in Hlen.
  destruct (JS.split ">>" (fselector config)) as [|p0 [|p1 rest]]; simpl in Hlen; try lia.
  intros Hin.
  assert (∃ host, shadowRoot (tree H) host = Some (Shadow :: host)
                  ∧ getRootNode e = Shadow :: host) as Hroot.
  { revert Hin. rewrite fmap_cons.
    generalize (length (JS.trim p0 :: (JS.trim <$> p1 :: rest))). intros n.
    rewrite findAll_parts_cons.
    destruct (length _ =? 0)%nat; [by intros ?%elem_of_nil|].
    apply findAll_parts_root; done. }
  split; [done|].
  destruct Hroot as (host & _ & Hroot).
  destruct (contains document e) eqn:Hc; [|done].
  apply contains_getRootNode in Hc. rewrite Hroot in Hc. done.
Qed.

End ShadowResults.



Section Seed.
Context (H : Host).


End Seed.

Section Bounds.

Lemma contains_step (i : nat) (m p : Node) :
  contains m p = true -> contains m (Child i :: p) = true.
Proof. intros Hc. rewrite contains_unfold. by rewrite Hc, orb_true_r. Qed.

Lemma mbe_walk_bound (elements : list Node) (candidate m : Node) :
  mbe_walk elements candidate = Some m ->
  contains m candidate = true
  ∧ (m = candidate ∨ length (List.filter (contains m) elements) = 1%nat)
  ∧ isUniqueChild elements m = false.
Proof.
  induction candidate as [|[i|] p IH]; rewrite mbe_walk_unfold.
  - rewrite isUniqueChild_top by done. intros [= <-].
    split; [done|]. split; [by left|by apply isUniqueChild_top].
  - destruct (isUniqueChild elements (Child i :: p)) eqn:Hu.
    + intros Hw. destruct (IH Hw) as (Hc & Hm & Hstop).
      split; [by apply contains_step|]. split; [|done]. right.
      destruct Hm as [-> | Hm]; [|done].
      unfold isUniqueChild in Hu. simpl in Hu. by apply Nat.eqb_eq in Hu.
    + intros [= <-]. split; [apply contains_refl|]. split; [by left|done].
  - rewrite isUniqueChild_top by done. intros [= <-].
    split; [apply contains_refl|]. split; [by left|by apply isUniqueChild_top].
Qed.

Lemma filter_singleton {A} (f : A -> bool) (l : list A) (x y : A) :
  length (List.filter f l) = 1%nat -> x ∈ l -> y ∈ l -> f x = true -> f y = true -> x = y.
Proof.
  intros Hlen Hx Hy Hfx Hfy.
  assert (In x (List.filter f l)) as Hx' by (apply filter_In; split; [by apply list_elem_of_In|done]).
  assert (In y (List.filter f l)) as Hy' by (apply filter_In; split; [by apply list_elem_of_In|done]).
  destruct (List.filter f l) as [|z [|z' l']]; simpl in *; try lia.
  destruct Hx' as [<- | []], Hy' as [<- | []]. done.
Qed.

(** X9: the minimal bounding element of a seed element contains it and,
    unless it is the seed element itself, contains no other seed element;
    two different seed elements never get the same bounding element. *)
Theorem mbe_separates_seeds (elements : list Node) :
  (∀ e, e ∈ elements ->
     ∃ m, mbe_walk elements e = Some m
       ∧ contains m e = true
       ∧ (m = e ∨ ∀ e', e' ∈ elements -> contains m e' = true -> e' = e))
  ∧ (∀ e1 e2, e1 ∈ elements -> e2 ∈ elements ->
       mbe_walk elements e1 = mbe_walk elements e2 -> e1 = e2).
Proof.
  assert (Hone : ∀ e, e ∈ elements ->
     ∃ m, mbe_walk elements e = Some m
       ∧ contains m e = true
       ∧ (m = e ∨ ∀ e', e' ∈ elements -> contains m e' = true -> e' = e)).
  { intros e He. destruct (mbe_walk_is_Some elements e) as [m Hm].
    exists m. split; [done|].
    destruct (mbe_walk_bound _ _ _ Hm) as (Hc & Hcount & _). split; [done|].
    destruct Hcount as [-> | Hcount]; [by left|]. right.
    intros e' He' Hc'. by apply (filter_singleton (contains m) elements e' e). }
  split; [exact Hone|].
  intros e1 e2 He1 He2 Heq.
  destruct (Hone e1 He1) as (m1 & Hm1 & Hc1 & Hs1).
  destruct (Hone e2 He2) as (m2 & Hm2 & Hc2 & Hs2).
  assert (m1 = m2) as <- by congruence.
  destruct Hs1 as [-> | Hs1]; [|symmetry; by apply Hs1].
  destruct Hs2 as [-> | Hs2]; [done|]. apply Hs2; [done|]. apply contains_refl.
Qed.

End Bounds.

Section SchemaResults.
Context (H : Host).


Lemma positional_zip_full (lists : Fields) :
  NoDup lists.*1 ->
  positional_zip H lists = item_at H lists <$> seq 0 (longest H lists).
Proof.
  intros Hnd. unfold positional_zip. apply filter_all_true.
  apply Forall_forall. intros r (i & -> & Hi%elem_of_seq)%list_elem_of_fmap.
  destruct lists as [|kv0 lists']; [unfold longest in Hi; simpl in Hi; lia|].
  destruct (max_length_attained H (kv0 :: lists')) as ([key config] & Hin & Hlen); [done|].
  fold (longest H (kv0 :: lists')) in Hlen. simpl in Hlen.
  destruct (lookup_lt_is_Some_2 (findAllElements H config) i) as [e He]; [lia|].
  pose proof (proj2 (item_at_lookup H _ i key Hnd) config Hin) as Hk.
  rewrite He in Hk. simpl in Hk.
  apply Nat.ltb_lt. unfold keys_length.
  destruct (decide (size (item_at H (kv0 :: lists') i) = 0)%nat) as [Hz|]; [|lia].
  apply map_size_empty_inv in Hz. rewrite Hz, lookup_empty in Hk. done.
Qed.

(** X11: with distinct labels the positional fallback returns one record
    for every position of the longest list: the final filter on
    [Object.keys(result).length] never removes anything. *)
Theorem fallback_keeps_every_position (lists : Fields) (records : list ScrapedRecord) :
  NoDup lists.*1 ->
  mbeResults H lists = JS.Ok records ->
  Exists (fun r => JS.undefined ∈ values r) records ->
  ∃ results, scrapeSchema H lists = JS.Ok results
    ∧ results = item_at H lists <$> seq 0 (longest H lists)
    ∧ length results = longest H lists.
Proof.
  intros Hnd Hres Hundef. eexists. split; [|split; [done|]].
  - unfold scrapeSchema. rewrite Hres. simpl.
    apply some_undefined_iff in Hundef. rewrite Hundef.
    by rewrite independent_scraping_zip, positional_zip_full.
  - by rewrite length_fmap, length_seq.
Qed.

End SchemaResults.

Lemma dom_fromEntries (entries : list (string * JS.value)) :
  dom (fromEntries entries) = list_to_set (C := gset string) entries.*1.
Proof.
  unfold fromEntries.
  assert (∀ m : ScrapedRecord,
    dom (foldl (fun m kv => <[ kv.1 := kv.2 ]> m) m entries)
    = list_to_set (C := gset string) entries.*1 ∪ dom m) as Hfold.
  { induction entries as [|kv entries IH]; intros m; csimpl.
    - by rewrite (left_id_L ∅ (∪)).
    - rewrite IH, dom_insert_L.
      by rewrite (assoc_L (∪)), (comm_L (∪) (list_to_set _)). }
  by rewrite Hfold, dom_empty_L, (right_id_L ∅ (∪)).
Qed.

Section MbePath.
Context (H : Host).

(** X12: what [scrapeSchema] returns is either the positional fallback or
    the first phase's records, and in the second case there is one record
    per seed element, each with exactly the field labels as keys and no
    [undefined] value. *)
Theorem schema_records_are_zipped_or_complete (lists : Fields) (results : list ScrapedRecord) :
  scrapeSchema H lists = JS.Ok results ->
  results = independent_scraping H lists
  ∨ (∃ seedConfig,
       getSeedKey H lists ≫= get_field lists = Some seedConfig
       ∧ length results = length (findAllElements H seedConfig))
    ∧ ∀ r, r ∈ results ->
        dom r = list_to_set (C := gset string) lists.*1
        ∧ ∀ k v, r !! k = Some v -> v ≠ JS.undefined.
Proof.
  intros Hs. destruct lists as [|kv lists'] eqn:Hl; [done|]. rewrite <- Hl in *.
  destruct (seed_exists H lists) as [seedConfig Hseed]; [by rewrite Hl|].
  unfold scrapeSchema in Hs. rewrite (mbeResults_total H _ _ Hseed) in Hs. simpl in Hs.
  destruct (existsb _ _) eqn:Hex; injection Hs as <-; [by left|]. right. split.
  - exists seedConfig. split; [done|]. by rewrite length_fmap.
  - intros r Hr. split.
    + apply list_elem_of_fmap in Hr as (e & -> & _).
      unfold omap_record. rewrite dom_fromEntries. f_equal.
      rewrite <- list_fmap_compose. done.
    + intros k v Hkv ->.
      assert (existsb (fun result =>
                existsb (fun v => bool_decide (v = JS.undefined)) (values result))
                ((fun e => omap_record lists
                     (bounded_value H (default e (mbe_walk (findAllElements H seedConfig) e))))
                   <$> findAllElements H seedConfig) = true) as Hbad; [|congruence].
      apply existsb_exists. exists r. split; [by apply list_elem_of_In|].
      apply existsb_exists. exists JS.undefined. split; [|by apply bool_decide_eq_true_2].
      apply list_elem_of_In. unfold values. apply list_elem_of_fmap.
      exists (k, JS.undefined). split; [done|]. by apply elem_of_map_to_list.
Qed.

End MbePath.

Section ShadowQueries.
Context (H : Host).

Lemma head_elem_of {A} (l : list A) (x : A) : head l = Some x -> x ∈ l.
Proof. destruct l; [done|]. intros [= ->]. by left. Qed.

Lemma query_step_among_all (cur e : Node) (part : string) :
  query_step H cur part = Some e -> e ∈ query_all_step H part cur.
Proof.
  unfold query_step, query_all_step, querySelector.
  destruct (head (querySelectorAll H cur part)) as [x|] eqn:Hx.
  - intros Heq.
    assert (x = e) as -> by (destruct (shadowRoot (tree H) cur); simpl in Heq; congruence).
    apply elem_of_app. left. by apply head_elem_of.
  - destruct (shadowRoot (tree H) cur) as [sr|].
    + destruct (head (querySelectorAll H sr part)) as [y|] eqn:Hy.
      * intros [= ->]. apply elem_of_app. right. apply elem_of_app. left.
        by apply head_elem_of.
      * intros Hh%head_elem_of. apply list_elem_of_omap in Hh as (child & Hc & Hq).
        apply elem_of_app. right. apply elem_of_app. right.
        apply list_elem_of_bind. exists child. split; [|done].
        destruct (shadowRoot (tree H) child) as [sr'|]; [|done]. simpl in Hq.
        by apply head_elem_of.
    + intros Hh%head_elem_of. apply list_elem_of_omap in Hh as (child & Hc & Hq).
      apply elem_of_app. right. apply elem_of_app. right.
      apply list_elem_of_bind. exists child. split; [|done].
      destruct (shadowRoot (tree H) child) as [sr'|]; [|done]. simpl in Hq.
      by apply head_elem_of.
Qed.

Lemma query_parts_among_all (parts : list string) (cur : list Node) (c e : Node) :
  c ∈ cur ->
  query_parts H (Some c) parts = Some e ->
  e ∈ foldl (fun currentElements part => currentElements ≫= query_all_step H part) cur parts.
Proof.
  revert cur c. induction parts as [|part parts IH]; intros cur c Hc; simpl.
  - by intros [= <-].
  - destruct (query_step H c part) as [c'|] eqn:Hstep.
    + apply IH. apply list_elem_of_bind. exists c. split; [|done].
      by apply query_step_among_all.
    + by destruct parts.
Qed.

(** X13: the element [queryShadowDOM] finds is one of those
    [queryShadowDOMAll] collects for the same root and selector; so where
    the latter finds nothing the former returns [null]. *)
Theorem first_match_is_a_match (rootElement : Node) (sel : string) (e : Node) :
  queryShadowDOM H rootElement sel = Some e -> e ∈ queryShadowDOMAll H rootElement sel.
Proof.
  unfold queryShadowDOM, queryShadowDOMAll. apply query_parts_among_all. by left.
Qed.

End ShadowQueries.

Section ListLoop.
Context (H : Host) (fields : Fields).

Lemma process_parents_spec (limit : nat) (parents : list Node)
    (scrapedData : list ScrapedRecord) :
  process_parents H fields limit parents scrapedData
  = scrapedData
    ++ take (limit - length scrapedData) (populated_records H fields parents).
Proof.
  revert scrapedData. unfold populated_records.
  induction parents as [|c parents IH]; intros scrapedData; csimpl.
  - by rewrite take_nil, app_nil_r.
  - destruct (Nat.leb_spec limit (length scrapedData)) as [Hle|Hlt].
    + replace (limit - length scrapedData)%nat with 0%nat by lia.
      by rewrite app_nil_r.
    + rewrite IH. destruct (0 <? keys_length (scrape_container H fields c))%nat; [|done].
      rewrite length_app. simpl.
      replace (limit - length scrapedData)%nat
        with (S (limit - (length scrapedData + 1)))%nat by lia.
      simpl. by rewrite <- app_assoc.
Qed.

Section Loop.
Context (listSelector : string) (limit : nat).

Local Abbreviation parents := (parentElements H listSelector limit).
Local Abbreviation recs := (populated_records H fields (parentElements H listSelector limit)).

Lemma scrapeList_loop_unfold (fuel : nat) (scrapedData : list ScrapedRecord) :
  scrapeList_loop H listSelector fields limit fuel scrapedData
  = if (length scrapedData <? limit)%nat then
      match fuel with
      | O => None
      | S fuel' =>
          let scrapedData' := process_parents H fields limit parents scrapedData in
          if (length parents =? 0)%nat || (length parents <=? length scrapedData')%nat
          then Some scrapedData'
          else scrapeList_loop H listSelector fields limit fuel' scrapedData'
      end
    else Some scrapedData.
Proof. by destruct fuel. Qed.

Lemma scrapeList_loop_shape (fuel : nat) (acc data : list ScrapedRecord) :
  scrapeList_loop H listSelector fields limit fuel acc = Some data ->
  ∃ m, data = acc ++ take (limit - length acc) (mjoin (replicate m recs)).
Proof.
  revert acc. induction fuel as [|fuel IH]; intros acc; rewrite scrapeList_loop_unfold.
  - destruct (length acc <? limit)%nat; [done|]. intros [= <-].
    exists 0%nat. simpl. by rewrite take_nil, app_nil_r.
  - destruct (length acc <? limit)%nat.
    + simpl. rewrite process_parents_spec.
      destruct (_ || _).
      * intros [= <-]. exists 1%nat. simpl. by rewrite app_nil_r.
      * intros (m & ->)%IH. exists (S m). simpl.
        rewrite <- app_assoc. f_equal. rewrite take_app. f_equal.
        rewrite length_app, length_take. f_equal. lia.
    + intros [= <-]. exists 0%nat. simpl. by rewrite take_nil, app_nil_r.
Qed.

Lemma scrapeList_loop_returns (fuel : nat) (acc : list ScrapedRecord) :
  parents = [] ∨ recs ≠ [] ->
  ((limit `min` length parents) - length acc < fuel)%nat ->
  is_Some (scrapeList_loop H listSelector fields limit fuel acc).
Proof.
  intros Hok. revert acc. induction fuel as [|fuel IH]; intros acc Hfuel; [lia|].
  rewrite scrapeList_loop_unfold.
  destruct (Nat.ltb_spec (length acc) limit) as [Hlt|]; [|by eexists]. simpl.
  rewrite process_parents_spec.
  destruct (Nat.eqb_spec (length parents) 0) as [|Hn]; [by eexists|]. simpl.
  destruct (Nat.leb_spec (length parents) (length (acc ++ take (limit - length acc) recs)))
    as [|Hless]; [by eexists|].
  apply IH. rewrite length_app, length_take in *.
  destruct Hok as [Hnil | Hrecs]; [by rewrite Hnil in Hn|].
  assert (1 <= length recs)%nat by (destruct recs; [done|simpl; lia]).
  lia.
Qed.

(** X14: with no container, or with a container that yields a field,
    [scrapeList] returns within [min limit n + 1] passes over the [n]
    containers; whatever it returns has at most [limit] records and is a
    prefix of the populated containers' records repeated pass after pass, so
    unpopulated containers make the same records come back more than once. *)
Theorem scrapeList_repeats_records :
  (parents = [] ∨ recs ≠ [] ->
   is_Some (scrapeList H listSelector fields limit (S (limit `min` length parents))))
  ∧ ∀ fuel data,
      scrapeList H listSelector fields limit fuel = Some data ->
      (length data <= limit)%nat
      ∧ ∃ m, data = take limit (mjoin (replicate m recs)).
Proof.
  split.
  - intros Hok. apply scrapeList_loop_returns; [done|]. simpl. lia.
  - intros fuel data (m & ->)%scrapeList_loop_shape. simpl.
    rewrite Nat.sub_0_r. split; [rewrite length_take; lia|by exists m].
Qed.

(** X15: with [limit >= 1], when there are containers and none of them
    yields a field, no number of passes makes [scrapeList] return: the loop
    collects nothing and neither exit test ever holds. *)
Theorem scrapeList_never_returns (fuel : nat) :
  (1 <= limit)%nat -> parents ≠ [] -> recs = [] ->
  scrapeList H listSelector fields limit fuel = None.
Proof.
  intros Hlimit Hparents Hrecs. unfold scrapeList.
  induction fuel as [|fuel IH]; rewrite scrapeList_loop_unfold; simpl.
  - by replace (0 <? limit)%nat with true by (symmetry; apply Nat.ltb_lt; lia).
  - replace (0 <? limit)%nat with true by (symmetry; apply Nat.ltb_lt; lia).
    rewrite process_parents_spec, Hrecs, take_nil. simpl.
    replace (length parents =? 0)%nat with false
      by (symmetry; apply Nat.eqb_neq; by destruct parents).
    replace (length parents <=? 0)%nat with false
      by (symmetry; apply Nat.leb_gt; destruct parents; [done|simpl; lia]).
    exact IH.
Qed.

End Loop.

Lemma dom_scrape_field (parent : Node) (m : ScrapedRecord) (entry : string * FieldConfig) :
  dom (scrape_field H parent m entry)
  = (if bool_decide (is_Some (queryShadowDOM H parent
                                (default "" (last (JS.split ">>" (fselector entry.2))))))
     then {[ entry.1 ]} else ∅) ∪ dom m.
Proof.
  destruct entry as [label config]. unfold scrape_field. simpl.
  destruct (queryShadowDOM H parent _) as [fieldElement|].
  - rewrite (bool_decide_eq_true_2 (is_Some (Some fieldElement))) by (by eexists).
    by rewrite dom_insert_L.
  - rewrite (bool_decide_eq_false_2 (is_Some None)) by (by intros [? ?]).
    by rewrite (left_id_L ∅ (∪)).
Qed.

Lemma dom_scrape_container_fold (parent : Node) (fs : Fields) (m : ScrapedRecord) :
  dom (foldl (scrape_field H parent) m fs)
  = list_to_set (C := gset string) (resolved_labels H fs parent) ∪ dom m.
Proof.
  revert m. unfold resolved_labels.
  induction fs as [|entry fs IH]; intros m.
  - simpl. by rewrite (left_id_L ∅ (∪)).
  - simpl foldl. rewrite IH, dom_scrape_field. simpl List.filter.
    destruct (bool_decide _); csimpl.
    + by rewrite (assoc_L (∪)), (comm_L (∪) (list_to_set _)).
    + by rewrite (left_id_L ∅ (∪)).
Qed.

(** X16: the keys of a container's record are exactly the labels of the
    fields whose element is found under it, so the record is empty, and the
    container skipped, exactly when no field resolves. *)
Theorem container_keys (parent : Node) :
  dom (scrape_container H fields parent)
  = list_to_set (C := gset string) (resolved_labels H fields parent)
  ∧ (keys_length (scrape_container H fields parent) = 0%nat
     <-> resolved_labels H fields parent = []).
Proof.
  assert (Hdom : dom (scrape_container H fields parent)
                 = list_to_set (C := gset string) (resolved_labels H fields parent)).
  { unfold scrape_container.
    by rewrite dom_scrape_container_fold, dom_empty_L, (right_id_L ∅ (∪)). }
  split; [exact Hdom|]. unfold keys_length. rewrite <- size_dom, Hdom. split.
  - intros Hsize%size_empty_inv.
    destruct (resolved_labels H fields parent) as [|l ls]; [done|].
    exfalso. apply (not_elem_of_empty (C := gset string) l). rewrite <- Hsize.
    apply elem_of_list_to_set. by left.
  - intros ->. done.
Qed.

End ListLoop.

Section SingleMatch.
Context (H : Host).

Lemma child_shadow_finds (cur : Node) (part : string) :
  (children (tree H) cur ≫= fun child =>
     match shadowRoot (tree H) child with
     | Some sr => querySelectorAll H sr part
     | None => []
     end) ≠ [] ->
  is_Some (head (omap (fun child => sr ← shadowRoot (tree H) child;
                                    head (querySelectorAll H sr part))
                      (children (tree H) cur))).
Proof.
  intros Hne. destruct (children (tree H) cur ≫= _) as [|z l] eqn:Hb; [done|].
  assert (z ∈ children (tree H) cur ≫= fun child =>
            match shadowRoot (tree H) child with
            | Some sr => querySelectorAll H sr part
            | None => []
            end) as Hz by (rewrite Hb; left).
  apply list_elem_of_bind in Hz as (child & Hz & Hchild).
  destruct (shadowRoot (tree H) child) as [sr|] eqn:Hsr; [|by apply elem_of_nil in Hz].
  destruct (querySelectorAll H sr part) as [|w ws] eqn:Hw; [by apply elem_of_nil in Hz|].
  apply head_is_Some. intros Hnil.
  assert (w ∈ omap (fun child => sr ← shadowRoot (tree H) child;
                                 head (querySelectorAll H sr part))
                   (children (tree H) cur)) as Hin.
  { apply list_elem_of_omap. exists child. split; [done|]. rewrite Hsr. simpl.
    by rewrite Hw. }
  rewrite Hnil in Hin. by apply elem_of_nil in Hin.
Qed.

(** Where [queryShadowDOMAll] collects something from an element,
    [queryShadowDOM] finds something too. *)
Lemma query_step_finds (cur : Node) (part : string) :
  query_all_step H part cur ≠ [] -> is_Some (query_step H cur part).
Proof.
  unfold query_all_step, query_step, querySelector.
  destruct (querySelectorAll H cur part) as [|x l] eqn:Hq.
  - simpl. destruct (shadowRoot (tree H) cur) as [sr|].
    + destruct (querySelectorAll H sr part) as [|y l']; [|by eexists].
      simpl. apply child_shadow_finds.
    + simpl. apply child_shadow_finds.
  - intros _. simpl. destruct (shadowRoot (tree H) cur); by eexists.
Qed.

Lemma children_parentNode (doc : list Tree) (n c : Node) :
  c ∈ children doc n -> parentNode c = Some n.
Proof.
  unfold children. destruct (view doc n); [|by intros ?%elem_of_nil].
  by intros (i & -> & _)%list_elem_of_fmap.
Qed.

(** X17: with [limit > 1], when a selector without [>>] or surrounding
    white space resolves exactly one element, that element is both the
    container and the template of the fallback: the accepted containers are
    children of it and never the element itself. *)
Theorem single_match_gives_its_children (sel : string) (limit : nat) (E : Node) :
  (1 < limit)%nat ->
  JS.split ">>" sel = [sel] ->
  JS.trim sel = sel ->
  queryShadowDOMAll H document sel = [E] ->
  parentElements H sel limit = similar_children H E E
  ∧ (E ∉ parentElements H sel limit)
  ∧ ∀ c, c ∈ parentElements H sel limit -> parentNode c = Some E.
Proof.
  intros Hlimit Hsplit Htrim Hall.
  assert (queryShadowDOM H document sel = Some E) as Hfirst.
  { destruct (queryShadowDOM H document sel) as [fm|] eqn:Hq.
    - assert (fm ∈ queryShadowDOMAll H document sel) as Hin.
      { unfold queryShadowDOM in Hq. unfold queryShadowDOMAll.
        apply (query_parts_among_all H _ _ document); [by left|done]. }
      rewrite Hall in Hin. by apply list_elem_of_singleton in Hin as ->.
    - exfalso. unfold queryShadowDOM, queryShadowDOMAll in *.
      rewrite Hsplit in *. csimpl in *. rewrite Htrim in *.
      rewrite app_nil_r in Hall.
      destruct (query_step_finds document sel) as [x Hx]; [by rewrite Hall|].
      congruence. }
  assert (parentElements H sel limit = similar_children H E E) as Hpe.
  { unfold parentElements. rewrite Hall, Hsplit. csimpl. rewrite Htrim, Hfirst.
    by replace (1 <? limit)%nat with true by (symmetry; by apply Nat.ltb_lt). }
  split; [done|]. rewrite Hpe.
  assert (∀ c, c ∈ similar_children H E E -> parentNode c = Some E) as Hkids.
  { intros c Hc. unfold similar_children in Hc.
    apply list_elem_of_In, filter_In in Hc as [Hc%list_elem_of_In _].
    by eapply children_parentNode. }
  split; [|done].
  intros Hin%Hkids. destruct E as [|[i|] p]; simpl in Hin; try done.
  injection Hin as Hin. apply (f_equal length) in Hin. simpl in Hin. lia.
Qed.

End SingleMatch.



Section AutoList.
Context (H : Host).







End AutoList.

(** ** Runs on the sample pages *)

(** The cards of [cards_page] are picked by sampling. *)
Lemma heuristics_selection_witness :
  scrapableHeuristics Sample.cards_page default_params 0 (0, 120)%Z
  = ((0, 120)%Z, JS.Ok (Some Sample.cards))
  ∧ ∃ sel, Some Sample.cards = Some (querySelectorAll Sample.cards_page document sel)
      ∧ (sel = "body"
         ∨ (sampled Sample.cards_page default_params sel
            ∧ (3 <= length (querySelectorAll Sample.cards_page document sel))%nat)).
Proof.
  assert (Hrun : scrapableHeuristics Sample.cards_page default_params 0 (0, 120)%Z
                 = ((0, 120)%Z, JS.Ok (Some Sample.cards))) by (vm_compute; reflexivity).
  split; [exact Hrun|].
  destruct (heuristics_selection Sample.cards_page default_params 0 _ _ _ Hrun)
    as (sel & Hout & Hsel & _).
  exists sel. split; [exact Hout|exact Hsel].
Defined.

(** Three cards of the same size score 1. *)
Lemma size_deviation_range_witness :
  Sample.cards ≠ []
  ∧ (∀ e, e ∈ Sample.cards -> (0 <= area Sample.cards_page e)%Z)
  ∧ match score Sample.cards_page size_deviation Sample.cards with
    | Some q => (0 <= q)%Q ∧ (q <= 1)%Q
    | None => False
    end.
Proof.
  assert (Hne : Sample.cards ≠ []) by discriminate.
  assert (Hpos : ∀ e, e ∈ Sample.cards -> (0 <= area Sample.cards_page e)%Z).
  { apply Forall_forall. repeat constructor; vm_compute; discriminate. }
  split; [exact Hne|]. split; [exact Hpos|].
  pose proof (size_deviation_range Sample.cards_page Sample.cards Hne Hpos) as Hs.
  destruct (score Sample.cards_page size_deviation Sample.cards) as [q|] eqn:Hq.
  - destruct Hs as (H0 & H1 & _). split; [exact H0|exact H1].
  - vm_compute in Hq. discriminate Hq.
Defined.

(** One product matched by [.item]: one record, scroll untouched. *)
Lemma scrape_with_selector_witness :
  ".item" ≠ ""
  ∧ (scrape Sample.gallery_page (Some ".item") 0 (0, 120)%Z).1 = (0, 120)%Z.
Proof.
  assert (Hsel : ".item" ≠ "") by discriminate.
  split; [exact Hsel|].
  exact (proj1 (scrape_with_selector Sample.gallery_page ".item" 0 (0, 120)%Z Hsel)).
Defined.

Lemma scraped_record_keys_witness :
  prop Sample.gallery_page innerText None Sample.product_at
  = Some (" Lamp " +:+ newline +:+ newline +:+ "9.99")
  ∧ ∃ r, scrape_record Sample.gallery_page Sample.product_at = JS.Ok r
      ∧ is_Some (r !! "record_0000").
Proof.
  split; [reflexivity|].
  destruct (scraped_record_keys Sample.gallery_page Sample.product_at _ eq_refl)
    as (r & Hr & Hfirst & _).
  exists r. split; [exact Hr|exact Hfirst].
Defined.

(** The title of [shadow_page] lies in the shadow tree of the card. *)
Lemma shadow_results_outside_document_witness :
  contains document Sample.shadow_title = false.
Proof.
  refine (proj2 (shadow_results_outside_document Sample.shadow_page
                   {| fselector := "x-card >> .title"; attribute := Some "innerText";
                      shadow := true |} Sample.shadow_title _ _)).
  - reflexivity.
  - vm_compute. left.
Defined.


(** The catalogue falls back and keeps its three positions. *)
Lemma fallback_keeps_every_position_witness :
  NoDup Sample.catalog_fields.*1
  ∧ ∃ results, scrapeSchema Sample.catalog_page Sample.catalog_fields = JS.Ok results
      ∧ length results = longest Sample.catalog_page Sample.catalog_fields.
Proof.
  assert (Hnd : NoDup Sample.catalog_fields.*1)
    by (apply (bool_decide_unpack _); vm_compute; exact I).
  assert (Hsome :
    match mbeResults Sample.catalog_page Sample.catalog_fields with
    | JS.Ok records =>
        existsb (fun result =>
                   existsb (fun v => bool_decide (v = JS.undefined)) (values result)) records
    | JS.TypeError => false
    end = true) by (vm_compute; reflexivity).
  destruct (mbeResults Sample.catalog_page Sample.catalog_fields) as [records|] eqn:Hres;
    [|discriminate Hsome].
  apply some_undefined_iff in Hsome as Hundef.
  split; [exact Hnd|].
  destruct (fallback_keeps_every_position Sample.catalog_page Sample.catalog_fields records
              Hnd Hres Hundef) as (results & Hs & _ & Hlen).
  exists results. split; [exact Hs|exact Hlen].
Defined.

(** The link page stays in the first phase: its record is complete. *)
Lemma schema_records_are_zipped_or_complete_witness :
  ∃ results, scrapeSchema Sample.link_page Sample.link_fields = JS.Ok results
    ∧ (results = independent_scraping Sample.link_page Sample.link_fields
       ∨ ∀ r, r ∈ results -> dom r = list_to_set (C := gset string) Sample.link_fields.*1).
Proof.
  destruct (scrapeSchema Sample.link_page Sample.link_fields) as [results|] eqn:Hs;
    [|vm_compute in Hs; discriminate Hs].
  exists results. split; [reflexivity|].
  destruct (schema_records_are_zipped_or_complete Sample.link_page Sample.link_fields
              results Hs) as [Hzip | [_ Hfull]].
  - left. exact Hzip.
  - right. intros r Hr. exact (proj1 (Hfull r Hr)).
Defined.

Lemma first_match_is_a_match_witness :
  queryShadowDOM Sample.five_entries document "ul >> #first" = Some (Sample.entry_at 0)
  ∧ Sample.entry_at 0 ∈ queryShadowDOMAll Sample.five_entries document "ul >> #first".
Proof.
  assert (Hq : queryShadowDOM Sample.five_entries document "ul >> #first"
               = Some (Sample.entry_at 0)) by reflexivity.
  split; [exact Hq|].
  exact (first_match_is_a_match Sample.five_entries document "ul >> #first" _ Hq).
Defined.

(** Only the first of three entries has a title: three passes, and the one
    record comes back three times. *)
Lemma scrapeList_repeats_records_witness :
  populated_records Sample2.sparse_entries Sample.entry_fields
    (parentElements Sample2.sparse_entries ".entry" 10) ≠ []
  ∧ is_Some (scrapeList Sample2.sparse_entries ".entry" Sample.entry_fields 10 4)
  ∧ (length <$> scrapeList Sample2.sparse_entries ".entry" Sample.entry_fields 10 4) = Some 3%nat
  ∧ (length (populated_records Sample2.sparse_entries Sample.entry_fields
               (parentElements Sample2.sparse_entries ".entry" 10)) = 1)%nat.
Proof.
  assert (Hrecs : populated_records Sample2.sparse_entries Sample.entry_fields
                    (parentElements Sample2.sparse_entries ".entry" 10) ≠ []).
  { intros Hnil. apply (f_equal length) in Hnil. vm_compute in Hnil. discriminate Hnil. }
  split; [exact Hrecs|]. split.
  - exact (proj1 (scrapeList_repeats_records Sample2.sparse_entries Sample.entry_fields
                    ".entry" 10) (or_intror Hrecs)).
  - split; vm_compute; reflexivity.
Defined.

(** No entry has a title: the loop spins. *)
Lemma scrapeList_never_returns_witness :
  (1 <= 10)%nat
  ∧ parentElements Sample2.bare_entries ".entry" 10 ≠ []
  ∧ scrapeList Sample2.bare_entries ".entry" Sample.entry_fields 10 1000 = None.
Proof.
  assert (Hlimit : (1 <= 10)%nat) by lia.
  assert (Hparents : parentElements Sample2.bare_entries ".entry" 10 ≠ []).
  { intros Hnil. apply (f_equal length) in Hnil. vm_compute in Hnil. discriminate Hnil. }
  assert (Hrecs : populated_records Sample2.bare_entries Sample.entry_fields
                    (parentElements Sample2.bare_entries ".entry" 10) = []).
  { apply length_zero_iff_nil. vm_compute. reflexivity. }
  split; [exact Hlimit|]. split; [exact Hparents|].
  exact (scrapeList_never_returns Sample2.bare_entries Sample.entry_fields ".entry" 10 1000
           Hlimit Hparents Hrecs).
Defined.

(** [#first] resolves one entry: what gets scraped is its title, not it. *)
Lemma single_match_gives_its_children_witness :
  queryShadowDOMAll Sample.five_entries document "#first" = [Sample.entry_at 0]
  ∧ parentElements Sample.five_entries "#first" 10 = [Child 0 :: Sample.entry_at 0]
  ∧ Sample.entry_at 0 ∉ parentElements Sample.five_entries "#first" 10.
Proof.
  assert (Hall : queryShadowDOMAll Sample.five_entries document "#first"
                 = [Sample.entry_at 0]) by reflexivity.
  split; [exact Hall|]. split; [reflexivity|].
  refine (proj1 (proj2 (single_match_gives_its_children Sample.five_entries "#first" 10
                          (Sample.entry_at 0) _ _ _ Hall))).
  - lia.
  - reflexivity.
  - reflexivity.
Defined.


(** The first wrapper is the biggest [div] of [cards_page]: no card is
    larger. *)
Lemma getBiggestElement_spec_witness :
  Sample.card_at 1 ∈ querySelectorAll Sample.cards_page document "div"
  ∧ (area Sample.cards_page (Sample.card_at 1)
     <= area_of Sample.cards_page (getBiggestElement Sample.cards_page "div"))%Z.
Proof.
  assert (Hin : Sample.card_at 1 ∈ querySelectorAll Sample.cards_page document "div").
  { apply list_elem_of_In. vm_compute. tauto. }
  split; [exact Hin|].
  exact (proj1 (getBiggestElement_spec Sample.cards_page "div") _ Hin).
Defined.

(** The two priced titles of the catalogue get different bounds. *)
Lemma mbe_separates_seeds_witness :
  mbe_walk [[Child 0; Child 0; Child 0; Child 0]; [Child 0; Child 1; Child 0; Child 0]]
           [Child 0; Child 0; Child 0; Child 0]
  ≠ mbe_walk [[Child 0; Child 0; Child 0; Child 0]; [Child 0; Child 1; Child 0; Child 0]]
             [Child 0; Child 1; Child 0; Child 0].
Proof.
  intros Heq.
  apply (proj2 (mbe_separates_seeds
                  [[Child 0; Child 0; Child 0; Child 0]; [Child 0; Child 1; Child 0; Child 0]]))
    in Heq.
  - discriminate Heq.
  - left.
  - right. left.
Defined.
